(** * update_lints: a shallow embedding of [util/update_lints.py]

    The script scans a source tree for [declare_lint!] declarations,
    renders them as a Markdown table and as a lint-group listing, and
    splices the rendered text into delimited regions of [README.md] and
    [src/lib.rs].

    Modelling conventions.
    - A Python [str] is a list of 8-bit characters ([list ascii]); the
      whitespace class [\s] is [[ \t\n\r\f\v]] and [\d] is [[0-9]], as for
      byte strings.
    - A file object iterated with [list(fp)] yields the maximal pieces that
      end in a newline (the last piece may lack it); [writelines] writes
      the concatenation.  Files are read and written byte for byte; an
      interpreter that opens them as text does the same on files without
      carriage return, and its whitespace class is the same on strings
      without the characters [Spec.disputed_space] lists.  Statements
      that depend on either say so in a hypothesis.
    - The file system is a tree of directories and files; [os.walk] lists a
      directory's files before descending into its sub-directories, in the
      order of the directory listing.
    - Exceptions are values: a computation returns [Return v] or [Raise e],
      together with the world as it was left. *)

From Stdlib Require Import Ascii String DecimalString.
From Stdlib Require Import List Arith Lia Bool ZArith Permutation Sorted.
Import ListNotations.

(** ** Python strings and the primitives the script uses *)

Module Py.

Definition str := list ascii.

Notation "# s" := (list_ascii_of_string s) (at level 1, s at level 0, format "# s").

Definition chr_eqb (a b : ascii) : bool := Ascii.eqb a b.

(** Character codes used by the patterns. *)
Definition NL : ascii := ascii_of_nat 10.
Definition TAB : ascii := ascii_of_nat 9.
Definition VT : ascii := ascii_of_nat 11.
Definition FF : ascii := ascii_of_nat 12.
Definition CR : ascii := ascii_of_nat 13.
Definition SP : ascii := " "%char.
Definition BSL : ascii := "\"%char.
Definition QUOTE : ascii := ascii_of_nat 34.

(** [\s] *)
Definition is_space (c : ascii) : bool :=
  chr_eqb c SP || chr_eqb c TAB || chr_eqb c NL || chr_eqb c CR
  || chr_eqb c FF || chr_eqb c VT.

(** [\d] *)
Definition is_digit (c : ascii) : bool :=
  (48 <=? nat_of_ascii c) && (nat_of_ascii c <=? 57).

(** [[A-Z]] and [[a-z]] *)
Definition is_upper (c : ascii) : bool :=
  (65 <=? nat_of_ascii c) && (nat_of_ascii c <=? 90).
Definition is_lower (c : ascii) : bool :=
  (97 <=? nat_of_ascii c) && (nat_of_ascii c <=? 122).

(** [str.lower] and [str.upper] *)
Definition lower_chr (c : ascii) : ascii :=
  if is_upper c then ascii_of_nat (nat_of_ascii c + 32) else c.
Definition upper_chr (c : ascii) : ascii :=
  if is_lower c then ascii_of_nat (nat_of_ascii c - 32) else c.
Definition lower (s : str) : str := map lower_chr s.
Definition upper (s : str) : str := map upper_chr s.

(** [==] on strings and on lists of strings *)
Fixpoint str_eqb (a b : str) : bool :=
  match a, b with
  | [], [] => true
  | x :: a', y :: b' => chr_eqb x y && str_eqb a' b'
  | _, _ => false
  end.

Fixpoint lines_eqb (a b : list str) : bool :=
  match a, b with
  | [], [] => true
  | x :: a', y :: b' => str_eqb x y && lines_eqb a' b'
  | _, _ => false
  end.

(** [<] on strings: code-point lexicographic order *)
Fixpoint str_compare (a b : str) : comparison :=
  match a, b with
  | [], [] => Eq
  | [], _ :: _ => Lt
  | _ :: _, [] => Gt
  | x :: a', y :: b' =>
      match Nat.compare (nat_of_ascii x) (nat_of_ascii y) with
      | Eq => str_compare a' b'
      | c => c
      end
  end.

Definition str_ltb (a b : str) : bool :=
  match str_compare a b with Lt => true | _ => false end.

(** [str.startswith], [str.endswith] *)
Fixpoint startswith (s p : str) : bool :=
  match p, s with
  | [], _ => true
  | _ :: _, [] => false
  | x :: p', y :: s' => chr_eqb x y && startswith s' p'
  end.

Definition endswith (s p : str) : bool := startswith (rev s) (rev p).

(** [p * n] for a one-character string [p] *)
Definition times (c : ascii) (n : nat) : str := repeat c n.

(** ['%-*s' % (w, s)]: left-justify [s] in a field of width [w]; the
    padding goes to the right and a longer [s] is not cut. *)
Definition ljust (w : nat) (s : str) : str := s ++ times SP (w - length s).

(** ['%d' % n] *)
Definition fmt_d (n : nat) : str :=
  list_ascii_of_string (NilEmpty.string_of_uint (Nat.to_uint n)).

(** [max(len(...) for ...)] raises [ValueError] on the empty sequence. *)
Definition max_of (l : list nat) : option nat :=
  match l with
  | [] => None
  | x :: l' => Some (fold_left Nat.max l' x)
  end.

(** [sorted(l, key=...)] with [<] on keys: a stable sort.  An element is
    inserted in front of the first later element that is not smaller. *)
Section Sorted.
Variables (A : Type) (ltb : A -> A -> bool).

Fixpoint insert (x : A) (l : list A) : list A :=
  match l with
  | [] => [x]
  | y :: l' => if ltb y x then y :: insert x l' else x :: l
  end.

Definition sorted (l : list A) : list A := fold_right insert [] l.
End Sorted.
Arguments insert {A} ltb x l.
Arguments sorted {A} ltb l.

(** [list(fp)]: split after every newline. *)
Fixpoint readlines_aux (cur : str) (s : str) : list str :=
  match s with
  | [] => match cur with [] => [] | _ => [rev cur] end
  | c :: s' =>
      if chr_eqb c NL then rev (c :: cur) :: readlines_aux [] s'
      else readlines_aux (c :: cur) s'
  end.

Definition readlines (s : str) : list str := readlines_aux [] s.

(** [fp.writelines(ls)] on a fresh file *)
Definition writelines (ls : list str) : str := concat ls.

(** [os.path.basename]: the part after the last slash. *)
Fixpoint basename_aux (cur : str) (s : str) : str :=
  match s with
  | [] => rev cur
  | c :: s' =>
      if chr_eqb c "/"%char then basename_aux [] s'
      else basename_aux (c :: cur) s'
  end.

Definition basename (p : str) : str := basename_aux [] p.

(** [os.path.splitext]: the extension starts at the last dot of the last
    path component, unless only dots precede it in that component. *)
Fixpoint rfind_aux (c : ascii) (i : nat) (s : str) (found : option nat)
  : option nat :=
  match s with
  | [] => found
  | x :: s' => rfind_aux c (S i) s' (if chr_eqb x c then Some i else found)
  end.

(** [s.rfind(c)], with [None] for -1 *)
Definition rfind (c : ascii) (s : str) : option nat := rfind_aux c 0 s None.

Definition forallb_range (s : str) (from to : nat) (p : ascii -> bool) : bool :=
  forallb p (firstn (to - from) (skipn from s)).

Definition splitext (p : str) : str * str :=
  let filename_index :=
    match rfind "/"%char p with Some i => S i | None => 0 end in
  match rfind "."%char p with
  | Some dot =>
      if (filename_index <=? dot)
         && negb (forallb_range p filename_index dot (fun c => chr_eqb c "."%char))
      then (firstn dot p, skipn dot p)
      else (p, [])
  | None => (p, [])
  end.

(** [os.path.join(root, fn)] *)
Definition path_join (root fn : str) : str :=
  if startswith fn #"/" then fn
  else match root with
       | [] => fn
       | _ => if endswith root #"/" then root ++ fn else root ++ #"/" ++ fn
       end.

(** Exceptions the script can raise. *)
Inductive exn : Type := ValueError | IOError.

Inductive outcome (A : Type) : Type :=
| Return (a : A)
| Raise (e : exn).
Arguments Return {A} a.
Arguments Raise {A} e.

End Py.

(** ** The regular expressions of the script

    Each pattern is transcribed as the matcher it denotes.  In every
    pattern a greedy repetition is followed by a character outside the
    repeated class (or by the end of the pattern), and no alternative is a
    prefix of another, so the first choice of the backtracking matcher is
    the only one that can succeed: the matchers below take it directly. *)

Module Re.
Import Py.

(** A literal: the rest of the subject after it. *)
Fixpoint lit (p s : str) : option str :=
  match p, s with
  | [], _ => Some s
  | _ :: _, [] => None
  | x :: p', y :: s' => if chr_eqb x y then lit p' s' else None
  end.

(** A greedy [c*]: the characters taken and the rest. *)
Fixpoint many (c : ascii -> bool) (s : str) : str * str :=
  match s with
  | [] => ([], [])
  | x :: s' =>
      if c x then let (m, r) := many c s' in (x :: m, r) else ([], s)
  end.

(** A greedy [c+]. *)
Definition many1 (c : ascii -> bool) (s : str) : option (str * str) :=
  match many c s with
  | ([], _) => None
  | (m, r) => Some (m, r)
  end.

(** One character of a class. *)
Definition one (c : ascii -> bool) (s : str) : option str :=
  match s with
  | x :: s' => if c x then Some s' else None
  | [] => None
  end.

(** [re.search] of an unanchored pattern: a match at some position. *)
Fixpoint search (m : str -> bool) (s : str) : bool :=
  m s || match s with [] => false | _ :: s' => search m s' end.

Notation "'do' x <- e ; k" :=
  (match e with Some x => k | None => None end)
  (at level 10, x pattern, e at level 100, k at level 200, only parsing).

(** *** [declare_lint_re] *)

Record lint_match : Type := mk_match
  { name_group : str; level_group : str; desc_group : str }.

(** [(?P<level>Forbid|Deny|Warn|Allow)] *)
Definition level_alt (s : str) : option (str * str) :=
  match lit #"Forbid" s with
  | Some r => Some (#"Forbid", r)
  | None =>
  match lit #"Deny" s with
  | Some r => Some (#"Deny", r)
  | None =>
  match lit #"Warn" s with
  | Some r => Some (#"Warn", r)
  | None =>
  match lit #"Allow" s with
  | Some r => Some (#"Allow", r)
  | None => None
  end end end end.

(** The group [desc] under [re.S], a repetition of two alternatives: a run
    of characters other than the quote and the backslash, or a backslash
    and any one character.  The body stops
    at the first quote outside a pair, at a backslash that ends the
    subject, or at the end of the subject. *)
Fixpoint desc_body (s : str) : str * str :=
  match s with
  | [] => ([], [])
  | c :: s' =>
      if chr_eqb c QUOTE then ([], s)
      else if chr_eqb c BSL then
        match s' with
        | [] => ([], s)
        | d :: s'' => let (b, r) := desc_body s'' in (c :: d :: b, r)
        end
      else let (b, r) := desc_body s' in (c :: b, r)
  end.

Definition is_open (c : ascii) : bool := chr_eqb c "{"%char || chr_eqb c "("%char.
Definition is_close (c : ascii) : bool := chr_eqb c "}"%char || chr_eqb c ")"%char.
Definition is_name_chr (c : ascii) : bool := is_upper c || chr_eqb c "_"%char.
Definition is_comma (c : ascii) : bool := chr_eqb c ","%char.
Definition is_quote (c : ascii) : bool := chr_eqb c QUOTE.

(** A match of [declare_lint_re] that starts at the head of the subject:
    the groups and the rest of the subject after the match. *)
Definition match_at (s : str) : option (lint_match * str) :=
  do s <- lit #"declare_lint!" s;
  let s := snd (many is_space s) in
  do s <- one is_open s;
  let s := snd (many is_space s) in
  do s <- lit #"pub" s;
  do (_, s) <- many1 is_space s;
  do (name, s) <- many1 is_name_chr s;
  let s := snd (many is_space s) in
  do s <- one is_comma s;
  let s := snd (many is_space s) in
  do (level, s) <- level_alt s;
  let s := snd (many is_space s) in
  do s <- one is_comma s;
  let s := snd (many is_space s) in
  do s <- one is_quote s;
  let '(desc, s) := desc_body s in
  do s <- one is_quote s;
  let s := snd (many is_space s) in
  do s <- one is_close s;
  Some (mk_match name level desc, s).

(** [declare_lint_re.finditer]: the matches from left to right, each
    search resuming where the previous match ended.  [skip] counts the
    characters of the subject still covered by the last match. *)
Fixpoint finditer_aux (skip : nat) (s : str) : list lint_match :=
  match s with
  | [] => []
  | _ :: s' =>
      match skip with
      | S k => finditer_aux k s'
      | O =>
          match match_at s with
          | Some (m, rest) => m :: finditer_aux (length s - length rest - 1) s'
          | None => finditer_aux 0 s'
          end
      end
  end.

Definition finditer (code : str) : list lint_match := finditer_aux 0 code.

(** *** [nl_escape_re.sub('', d)]: drop every backslash, newline and the
    whitespace that follows.  [in_ws] holds while the [\s*] of a match is
    still running. *)
Fixpoint nl_escape_sub_aux (in_ws : bool) (s : str) : str :=
  match s with
  | [] => []
  | c :: s' =>
      if in_ws && is_space c then nl_escape_sub_aux true s'
      else if chr_eqb c BSL then
        match s' with
        | d :: s'' =>
            if chr_eqb d NL then nl_escape_sub_aux true s''
            else c :: nl_escape_sub_aux false s'
        | [] => [c]
        end
      else c :: nl_escape_sub_aux false s'
  end.

Definition nl_escape_sub (d : str) : str := nl_escape_sub_aux false d.

(** [d.replace(old, new)] with [old] the backslash followed by the quote
    and [new] the quote alone. *)
Fixpoint replace_escaped_quote (s : str) : str :=
  match s with
  | [] => []
  | c :: s' =>
      if chr_eqb c BSL then
        match s' with
        | d :: s'' =>
            if chr_eqb d QUOTE then QUOTE :: replace_escaped_quote s''
            else c :: replace_escaped_quote s'
        | [] => [c]
        end
      else c :: replace_escaped_quote s'
  end.

(** *** The line patterns of [main] *)

(** [^name +\|] *)
Definition table_start (line : str) : bool :=
  match lit #"name" line with
  | Some r =>
      match many1 (chr_eqb SP) r with
      | Some (_, r') =>
          match one (chr_eqb "|"%char) r' with Some _ => true | None => false end
      | None => false
      end
  | None => false
  end.

(** [^$]: the empty string, or a single newline ([$] also matches just
    before a final newline). *)
Definition blank (line : str) : bool :=
  match line with
  | [] => true
  | [c] => chr_eqb c NL
  | _ => false
  end.

(** [^There are \d+ lints included in this crate:] *)
Definition count_start (line : str) : bool :=
  match lit #"There are " line with
  | Some r =>
      match many1 is_digit r with
      | Some (_, r') =>
          match lit #" lints included in this crate:" r' with
          | Some _ => true
          | None => false
          end
      | None => false
      end
  | None => false
  end.

(** The empty pattern matches every line. *)
Definition empty (line : str) : bool := true.

(** [reg.register_lint_group\(] followed by the quoted word [clippy]; the
    dot is any character but a newline. *)
Definition group_start_at (s : str) : bool :=
  match lit #"reg" s with
  | Some r =>
      match one (fun c => negb (chr_eqb c NL)) r with
      | Some r' =>
          match lit (#"register_lint_group(" ++ [QUOTE] ++ #"clippy" ++ [QUOTE]) r' with
          | Some _ => true
          | None => false
          end
      | None => false
      end
  | None => false
  end.

Definition group_start (line : str) : bool := search group_start_at line.

(** [\]\);] *)
Definition group_end (line : str) : bool :=
  search (fun s => match lit #"]);" s with Some _ => true | None => false end) line.

End Re.

(** ** The world the script runs in *)

Module World.
Import Py.

(** A directory tree: the listing order of a directory is the order of its
    entries. *)
#[warnings="-register-all"]
Inductive node : Type :=
| File (content : str)
| Dir (entries : list (str * node)).

Record world : Type := mk_world
  { cwd : node;        (* the current directory *)
    stdout : str }.    (* everything written to standard output *)

(** A computation: an outcome and the world it leaves. *)
Definition M (A : Type) : Type := world -> outcome A * world.

Definition ret {A} (a : A) : M A := fun w => (Return a, w).
Definition throw {A} (e : exn) : M A := fun w => (Raise e, w).
Definition bind {A B} (m : M A) (k : A -> M B) : M B :=
  fun w =>
    match m w with
    | (Return a, w') => k a w'
    | (Raise e, w') => (Raise e, w')
    end.
Definition lift {A} (o : outcome A) : M A := fun w => (o, w).

Notation "x <- m ;; k" := (bind m (fun x => k))
  (at level 61, m at next level, right associativity).
Notation "m ;;; k" := (bind m (fun _ => k))
  (at level 61, right associativity).

(** Paths are relative to the current directory, components separated by
    slashes. *)
Fixpoint split_path_aux (cur : str) (p : str) : list str :=
  match p with
  | [] => [rev cur]
  | c :: p' =>
      if chr_eqb c "/"%char then rev cur :: split_path_aux [] p'
      else split_path_aux (c :: cur) p'
  end.

Definition split_path (p : str) : list str := split_path_aux [] p.

Fixpoint assoc (k : str) (es : list (str * node)) : option node :=
  match es with
  | [] => None
  | (k', n) :: es' => if str_eqb k k' then Some n else assoc k es'
  end.

Fixpoint set_assoc (k : str) (n : node) (es : list (str * node))
  : list (str * node) :=
  match es with
  | [] => [(k, n)]
  | (k', n') :: es' =>
      if str_eqb k k' then (k, n) :: es' else (k', n') :: set_assoc k n es'
  end.

Fixpoint lookup (comps : list str) (n : node) : option node :=
  match comps with
  | [] => Some n
  | c :: cs =>
      match n with
      | Dir es =>
          match assoc c es with
          | Some n' => lookup cs n'
          | None => None
          end
      | File _ => None
      end
  end.

(** The tree after [open(path, 'w')] and a write of [content]: the file
    is created or truncated; the directory above it has to exist. *)
Fixpoint store (comps : list str) (content : str) (n : node) : option node :=
  match comps with
  | [] => match n with File _ => Some (File content) | Dir _ => None end
  | c :: cs =>
      match n with
      | Dir es =>
          match assoc c es with
          | Some n' =>
              match store cs content n' with
              | Some n'' => Some (Dir (set_assoc c n'' es))
              | None => None
              end
          | None =>
              match cs with
              | [] => Some (Dir (set_assoc c (File content) es))
              | _ => None
              end
          end
      | File _ => None
      end
  end.

(** [os.path.isfile] *)
Definition isfile (p : str) : M bool :=
  fun w =>
    (Return match lookup (split_path p) (cwd w) with
            | Some (File _) => true
            | _ => false
            end, w).

(** [with open(p) as fp: fp.read()] *)
Definition read_file (p : str) : M str :=
  fun w =>
    match lookup (split_path p) (cwd w) with
    | Some (File c) => (Return c, w)
    | _ => (Raise IOError, w)
    end.

(** [with open(p, 'w') as fp: fp.writelines(ls)] *)
Definition write_lines (p : str) (ls : list str) : M unit :=
  fun w =>
    match store (split_path p) (writelines ls) (cwd w) with
    | Some n => (Return tt, mk_world n (stdout w))
    | None => (Raise IOError, w)
    end.

(** [sys.stdout.write] *)
Definition write_stdout (s : str) : M unit :=
  fun w => (Return tt, mk_world (cwd w) (stdout w ++ s)).

(** [print(s)] *)
Definition print (s : str) : M unit := write_stdout (s ++ [NL]).

(** [os.walk(top)]: one triple (directory, sub-directory names, file
    names) per directory, a directory before its sub-directories. *)
Definition is_dir (n : node) : bool :=
  match n with Dir _ => true | File _ => false end.

Definition names_of (p : node -> bool) (es : list (str * node)) : list str :=
  map fst (filter (fun e => p (snd e)) es).

Fixpoint walk_node (top : str) (n : node) : list (str * list str * list str) :=
  match n with
  | File _ => []
  | Dir es =>
      (top, names_of is_dir es, names_of (fun n => negb (is_dir n)) es)
      :: (fix below (es : list (str * node)) :=
            match es with
            | [] => []
            | (nm, sub) :: es' => walk_node (path_join top nm) sub ++ below es'
            end) es
  end.

Definition os_walk (top : str) : M (list (str * list str * list str)) :=
  fun w =>
    (Return match lookup (split_path top) (cwd w) with
            | Some n => walk_node top n
            | None => []
            end, w).

(** [for x in xs: body], threading the loop state. *)
Fixpoint for_each {A S} (xs : list A) (body : S -> A -> M S) (s : S) : M S :=
  match xs with
  | [] => ret s
  | x :: xs' => s' <- body s x ;; for_each xs' body s'
  end.

End World.

(** ** The script *)

Module UpdateLints.
Import Py World.

(** A lint: the tuple [(module, name, level, desc)]. *)
Record lint : Type := mk_lint
  { lint_module : str; lint_name : str; lint_level : str; lint_desc : str }.

(** [<] on lint tuples: the first differing component decides. *)
Definition lex (c1 c2 : comparison) : comparison :=
  match c1 with Eq => c2 | _ => c1 end.

Definition lint_compare (a b : lint) : comparison :=
  lex (str_compare (lint_module a) (lint_module b))
  (lex (str_compare (lint_name a) (lint_name b))
  (lex (str_compare (lint_level a) (lint_level b))
       (str_compare (lint_desc a) (lint_desc b)))).

Definition lint_ltb (a b : lint) : bool :=
  match lint_compare a b with Lt => true | _ => false end.

Definition name_ltb (a b : lint) : bool := str_ltb (lint_name a) (lint_name b).

(** *** [collect] *)

(** The tuple appended for one match in the file [fn]. *)
Definition lint_of_match (fn : str) (m : Re.lint_match) : lint :=
  let desc := Re.nl_escape_sub (Re.desc_group m) in
  mk_lint (fst (splitext (basename fn)))
          (lower (Re.name_group m))
          (lower (Re.level_group m))
          (Re.replace_escaped_quote desc).

(** The loop over the matches of one file's text. *)
Definition collect_code (lints : list lint) (fn code : str) : list lint :=
  fold_left (fun lints m => lints ++ [lint_of_match fn m]) (Re.finditer code) lints.

Definition collect (lints : list lint) (fn : str) : M (list lint) :=
  code <- read_file fn ;;
  ret (collect_code lints fn code).

(** *** [gen_table]

    A generator: the widths are computed when the first line is asked for,
    so on an empty list [ValueError] is raised before any line. *)
Definition table_header (w_name : nat) : str :=
  ljust w_name #"name" ++ #" | default | meaning" ++ [NL].

Definition table_underline (w_name w_desc : nat) : str :=
  times "-"%char w_name ++ #"-|-" ++ times "-"%char 7 ++ #"-|-"
  ++ times "-"%char w_desc ++ [NL].

Definition table_row (w_name : nat) (l : lint) : str :=
  ljust w_name (lint_name l) ++ #" | " ++ ljust 7 (lint_level l) ++ #" | "
  ++ lint_desc l ++ [NL].

Definition gen_table (lints : list lint) : outcome (list str) :=
  match max_of (map (fun l => length (lint_name l)) lints) with
  | None => Raise ValueError
  | Some w_name =>
      match max_of (map (fun l => length (lint_desc l)) lints) with
      | None => Raise ValueError
      | Some w_desc =>
          Return (table_header w_name
                  :: table_underline w_name w_desc
                  :: map (table_row w_name) (sorted name_ltb lints))
      end
  end.

(** *** [gen_group] *)
Definition group_line (l : lint) : str :=
  #"        " ++ lint_module l ++ #"::" ++ upper (lint_name l) ++ #"," ++ [NL].

Definition gen_group (lints : list lint) : list str :=
  map group_line (sorted lint_ltb lints).

(** *** [replace_region] *)

(** The variables of the scan; [calls] counts the invocations of the
    callback. *)
Record scan : Type := mk_scan
  { new_lines : list str; in_old_region : bool; calls : nat }.

Definition scan_init : scan := mk_scan [] false 0.

Section ReplaceRegion.
Variables (region_start region_end : str -> bool).
(** [callback k] is what the [k]-th call of the callback yields. *)
Variable callback : nat -> outcome (list str).
Variable replace_start : bool.

(** The body of the loop over the lines. *)
Definition scan_line (st : scan) (line : str) : outcome scan :=
  if in_old_region st then
    if region_end line then
      match callback (calls st) with
      | Return g =>
          Return (mk_scan ((new_lines st ++ g) ++ [line]) false (S (calls st)))
      | Raise e => Raise e
      end
    else Return st
  else if region_start line then
    Return (mk_scan
              (if replace_start then new_lines st else new_lines st ++ [line])
              true (calls st))
  else Return (mk_scan (new_lines st ++ [line]) false (calls st)).

Fixpoint scan_lines (lines : list str) (st : scan) : outcome scan :=
  match lines with
  | [] => Return st
  | line :: lines' =>
      match scan_line st line with
      | Return st' => scan_lines lines' st'
      | Raise e => Raise e
      end
  end.

Definition replace_region (fn : str) (write_back : bool) : M bool :=
  text <- read_file fn ;;
  let lines := readlines text in
  st <- lift (scan_lines lines scan_init) ;;
  (if write_back then write_lines fn (new_lines st) else ret tt) ;;;
  ret (negb (lines_eqb lines (new_lines st))).
End ReplaceRegion.

(** The callback seen after [k] calls, and a scan result placed after
    lines already collected and [k] calls already made. *)
Definition later (k : nat) (cb : nat -> outcome (list str)) : nat -> outcome (list str) :=
  fun i => cb (k + i).

Definition resume (acc : list str) (k : nat) (o : outcome scan) : outcome scan :=
  match o with
  | Return st =>
      Return (mk_scan (acc ++ new_lines st) (in_old_region st) (k + calls st))
  | Raise e => Raise e
  end.

(** *** [main] *)

Definition count_line (lints : list lint) : str :=
  #"There are " ++ fmt_d (length lints) ++ #" lints included in this crate:" ++ [NL].

Definition collect_all : M (list lint) :=
  dirs <- os_walk #"src" ;;
  for_each dirs
    (fun lints '(root, _, files) =>
       for_each files
         (fun lints fn =>
            if endswith fn #".rs" then collect lints (path_join root fn)
            else ret lints)
         lints)
    [].

(** The three replacements of [main] and the flag [changed] they
    accumulate; [write_back] is [not check]. *)
Definition update_regions (lints : list lint) (check : bool) : M bool :=
  changed <- replace_region Re.table_start Re.blank
               (fun _ => gen_table lints) true #"README.md" (negb check) ;;
  changed2 <- replace_region Re.count_start Re.empty
                (fun _ => Return [count_line lints]) true
                #"README.md" (negb check) ;;
  let changed := changed || changed2 in
  changed3 <- replace_region Re.group_start Re.group_end
                (fun _ => Return (gen_group lints)) false
                #"src/lib.rs" (negb check) ;;
  ret (changed || changed3).

Definition main (print_only check : bool) : M (option Z) :=
  marker <- isfile #"src/lib.rs" ;;
  if negb marker then
    print #"Error: call this script from clippy checkout directory!" ;;;
    ret None
  else
    lints <- collect_all ;;
    if print_only then
      ls <- lift (gen_table lints) ;;
      write_stdout (concat ls) ;;;
      ret None
    else
      changed <- update_regions lints check ;;
      if check && changed then
        print #"Please run util/update_lints.py to regenerate lints lists." ;;;
        ret (Some 1%Z)
      else ret None.

(** [sys.exit(main(...))]: the exit status of the process.  [None] exits
    with 0, an integer with itself, an uncaught exception with 1. *)
Definition exit_status (o : outcome (option Z)) : Z :=
  match o with
  | Return None => 0
  | Return (Some n) => n
  | Raise _ => 1
  end.

End UpdateLints.

(** ** The orders and formats the renderers are specified with *)

Module Spec.
Import Py UpdateLints.

(** The lexicographic order on strings, by character code: a proper
    prefix comes first, otherwise the first differing character
    decides. *)
Inductive lex_lt : str -> str -> Prop :=
| lex_lt_nil c b : lex_lt [] (c :: b)
| lex_lt_head x y a b :
    nat_of_ascii x < nat_of_ascii y -> lex_lt (x :: a) (y :: b)
| lex_lt_tail x a b : lex_lt a b -> lex_lt (x :: a) (x :: b).

Definition lex_le (a b : str) : Prop := a = b \/ lex_lt a b.

(** The order on whole tuples [(module, name, level, desc)]: the module
    is the primary key, then the name, the level and the description. *)
Definition tuple_lt (a b : lint) : Prop :=
  lex_lt (lint_module a) (lint_module b)
  \/ (lint_module a = lint_module b
      /\ (lex_lt (lint_name a) (lint_name b)
          \/ (lint_name a = lint_name b
              /\ (lex_lt (lint_level a) (lint_level b)
                  \/ (lint_level a = lint_level b
                      /\ lex_lt (lint_desc a) (lint_desc b)))))).

Definition tuple_le (a b : lint) : Prop := a = b \/ tuple_lt a b.

(** A three-way comparison that orders its domain (elements that compare
    [Eq] need not be equal, as with a sort key). *)
Class Ordering {A : Type} (cmp : A -> A -> comparison) : Prop :=
  { cmp_sym : forall x y, cmp y x = CompOpp (cmp x y);
    cmp_trans : forall c x y z, cmp x y = c -> cmp y z = c -> cmp x z = c }.

(** [<] as a sort uses it, from a three-way comparison. *)
Definition ltb_of {A : Type} (cmp : A -> A -> comparison) (a b : A) : bool :=
  match cmp a b with Lt => true | _ => false end.

(** The four levels of a lint. *)
Definition levels : list str := [ #"forbid"; #"deny"; #"warn"; #"allow" ].

Definition level_ok (l : lint) : Prop := In (lint_level l) levels.

(** Lower case, character by character: an upper-case letter, of code 65
    to 90, becomes the letter 32 codes further; every other character
    stays as it is. *)
Inductive lowercase_chr : ascii -> ascii -> Prop :=
| lowercase_letter c :
    65 <= nat_of_ascii c <= 90 ->
    lowercase_chr c (ascii_of_nat (nat_of_ascii c + 32))
| lowercase_other c :
    ~ (65 <= nat_of_ascii c <= 90) -> lowercase_chr c c.

Definition lowercased (s t : str) : Prop := Forall2 lowercase_chr s t.

(** The severity keywords of a declaration and the levels recorded for
    them. *)
Definition level_keywords : list (str * str) :=
  [ (#"Forbid", #"forbid"); (#"Deny", #"deny");
    (#"Warn", #"warn"); (#"Allow", #"allow") ].

(** The characters on which the whitespace class of a pattern depends on
    the interpreter: the separators of codes 28 to 31, the next-line
    character 133 and the no-break space 160 are whitespace to a pattern
    on text, not to a pattern on bytes. *)
Definition disputed_space (c : ascii) : bool :=
  ((28 <=? nat_of_ascii c) && (nat_of_ascii c <=? 31))
  || (nat_of_ascii c =? 133) || (nat_of_ascii c =? 160).

Definition no_leading_space (s : str) : Prop :=
  forall c s', s = c :: s' -> is_space c = false.

(** A description with its line continuations removed: every backslash
    immediately followed by a newline goes, together with all the
    whitespace that follows the newline. *)
Inductive joined : str -> str -> Prop :=
| joined_nil : joined [] []
| joined_continuation ws rest out :
    Forall (fun c => is_space c = true) ws ->
    no_leading_space rest ->
    joined rest out ->
    joined (BSL :: NL :: ws ++ rest) out
| joined_chr c s out :
    (c = BSL -> forall s', s <> NL :: s') ->
    joined s out ->
    joined (c :: s) (c :: out).

(** A description with its escaped quotes unescaped: every backslash
    immediately followed by a quote becomes the quote alone. *)
Inductive unescaped : str -> str -> Prop :=
| unescaped_nil : unescaped [] []
| unescaped_quote s out :
    unescaped s out -> unescaped (BSL :: QUOTE :: s) (QUOTE :: out)
| unescaped_chr c s out :
    (c = BSL -> forall s', s <> QUOTE :: s') ->
    unescaped s out ->
    unescaped (c :: s) (c :: out).

(** Computations that leave the world, or at least the directory tree,
    as they found it. *)
Definition read_only {A : Type} (m : World.M A) : Prop :=
  forall w, snd (m w) = w.

Definition keeps_tree {A : Type} (m : World.M A) : Prop :=
  forall w, World.cwd (snd (m w)) = World.cwd w.

(** A complete line: text without newline, closed by a newline. *)
Definition complete_line (l : str) : Prop :=
  exists body, l = body ++ [NL] /\ ~ In NL body.

(** The lines of a file: complete lines, the last of which may lack its
    newline (it is then not empty). *)
Inductive file_lines : list str -> Prop :=
| file_lines_nil : file_lines []
| file_lines_last l : l <> [] -> ~ In NL l -> file_lines [l]
| file_lines_cons l ls :
    complete_line l -> file_lines ls -> file_lines (l :: ls).

(** Computations that change the tree at most at and above the given
    paths (lists of path components): every other path leads to what it
    led to before. *)
Definition is_prefix {A : Type} (a b : list A) : Prop := exists c, b = a ++ c.

Definition touches_only (targets : list (list str)) {A : Type} (m : World.M A)
  : Prop :=
  forall w q,
    (forall p, In p targets -> ~ is_prefix q p) ->
    World.lookup q (World.cwd (snd (m w))) = World.lookup q (World.cwd w).

(** Lines in which every region of a scan is closed and holds exactly
    the lines [g]: stretches without start line, each followed by [g] and
    an end line, and a last stretch without start line. *)
Inductive regions_hold (is_start is_end : str -> bool) (g : list str)
  : list str -> Prop :=
| regions_hold_plain p :
    Forall (fun l => is_start l = false) p -> regions_hold is_start is_end g p
| regions_hold_region p e rest :
    Forall (fun l => is_start l = false) p ->
    is_end e = true ->
    regions_hold is_start is_end g rest ->
    regions_hold is_start is_end g (p ++ g ++ e :: rest).

(** A string padded with spaces on its right up to a width. *)
Definition padded (w : nat) (s : str) : str := s ++ repeat SP (w - length s).

(** A string padded with spaces on its left up to a width. *)
Definition left_padded (w : nat) (s : str) : str :=
  repeat SP (w - length s) ++ s.

Definition dashes (n : nat) : str := repeat "-"%char n.

End Spec.

(** ** Example inputs *)

Module Examples.
Import Py World UpdateLints.

(** A README holding two count statements. *)
Definition two_counts : list str :=
  [ #"There are 7 lints included in this crate:" ++ [NL];
    [NL];
    #"There are 8 lints included in this crate:" ++ [NL];
    [NL] ].

Definition one_count (_ : nat) : outcome (list str) :=
  Return [ #"There are 1 lints included in this crate:" ++ [NL] ].

(** Two lints whose names have lengths 3 and 7. *)
Definition two_lints : list lint :=
  [ mk_lint #"misc" #"foo_bar" #"warn" #"a thing";
    mk_lint #"attrs" #"foo" #"allow" #"x" ].

(** A lint of module [a] named [z] and one of module [b] named [a]. *)
Definition lint_az : lint := mk_lint #"a" #"z" #"warn" #"d".
Definition lint_ba : lint := mk_lint #"b" #"a" #"warn" #"d".

(** A declaration as it stands in a source file. *)
Definition decl (name level desc : str) : str :=
  #"declare_lint! { pub " ++ name ++ #", " ++ level ++ #", "
  ++ [QUOTE] ++ desc ++ [QUOTE] ++ #" }" ++ [NL].

(** A checkout with two lints, a README with a count statement and a
    table, and a lint group in [src/lib.rs]. *)
Definition demo_readme : str :=
  #"# rust-clippy" ++ [NL]
  ++ #"There are 0 lints included in this crate:" ++ [NL]
  ++ [NL]
  ++ #"name | default | meaning" ++ [NL]
  ++ #"-----|---------|--------" ++ [NL]
  ++ #"old  | warn    | gone" ++ [NL]
  ++ [NL]
  ++ #"License: MPL" ++ [NL].

Definition demo_lib : str :=
  #"pub fn plugin_registrar(reg: &mut Registry) {" ++ [NL]
  ++ #"    reg.register_lint_group(" ++ [QUOTE] ++ #"clippy" ++ [QUOTE]
  ++ #", vec![" ++ [NL]
  ++ #"        old::OLD," ++ [NL]
  ++ #"    ]);" ++ [NL]
  ++ #"}" ++ [NL].

Definition demo_world : world :=
  mk_world
    (Dir [ (#"README.md", File demo_readme);
           (#"src",
            Dir [ (#"lib.rs", File demo_lib);
                  (#"misc.rs",
                   File (decl #"FOO_BAR" #"Warn"
                           (#"does a thing\" ++ [QUOTE] ++ #"s")));
                  (#"notes.txt", File (decl #"IGNORED" #"Deny" #"not rust"));
                  (#"sub",
                   Dir [ (#"attrs.rs",
                          File (decl #"INLINE_ALWAYS" #"Allow" #"x")) ]) ]) ])
    [].

Definition demo_lints : list lint :=
  [ mk_lint #"misc" #"foo_bar" #"warn" (#"does a thing" ++ [QUOTE] ++ #"s");
    mk_lint #"attrs" #"inline_always" #"allow" #"x" ].

(** A match whose description holds a continuation, and the declaration
    it comes from. *)
Definition continued : Re.lint_match :=
  Re.mk_match #"LONG" #"Warn" (#"one \" ++ [NL] ++ #"    two").

Definition continued_code : str :=
  decl #"LONG" #"Warn" (#"one \" ++ [NL] ++ #"    two").

(** A checkout whose only lint has a description that runs over two
    lines of the string literal, without a continuation. *)
Definition two_line_world : world :=
  mk_world
    (Dir [ (#"README.md", File demo_readme);
           (#"src",
            Dir [ (#"lib.rs", File demo_lib);
                  (#"misc.rs",
                   File (decl #"MULTI" #"Warn"
                           (#"first" ++ [NL] ++ #"second"))) ]) ])
    [].

(** The same with an empty line inside the description. *)
Definition blank_line_world : world :=
  mk_world
    (Dir [ (#"README.md", File demo_readme);
           (#"src",
            Dir [ (#"lib.rs", File demo_lib);
                  (#"misc.rs",
                   File (decl #"MULTI" #"Warn"
                           (#"first" ++ [NL; NL] ++ #"second"))) ]) ])
    [].

(** One run of the script in write mode, as the flag it accumulates. *)
Definition write_run : M bool :=
  World.bind collect_all (fun lints => update_regions lints false).

(** A directory that is not a checkout. *)
Definition empty_world : world := mk_world (Dir []) [].

(** A checkout in which no lint is declared. *)
Definition no_lints_world : world :=
  mk_world
    (Dir [ (#"README.md", File demo_readme);
           (#"src", Dir [ (#"lib.rs", File demo_lib) ]) ])
    [].

(** A checkout without [README.md]. *)
Definition no_readme_world : world :=
  mk_world
    (Dir [ (#"src",
            Dir [ (#"lib.rs", File demo_lib);
                  (#"misc.rs", File (decl #"FOO_BAR" #"Warn" #"x")) ]) ])
    [].

(** Two lints of the same name, from two modules, and a third one. *)
Definition same_name_lints : list lint :=
  [ mk_lint #"misc" #"foo" #"warn" #"the first";
    mk_lint #"attrs" #"bar" #"allow" #"x";
    mk_lint #"attrs" #"foo" #"deny" #"the second" ].

End Examples.

Import Py World UpdateLints Spec Examples.

(** * Properties *)

(** ** Equality tests decide equality *)

Lemma str_eqb_eq (a b : str) : str_eqb a b = true <-> a = b.
Proof.
  revert b; induction a as [|x a IH]; intros [|y b]; simpl;
    try (split; [discriminate | congruence]); try tauto.
  unfold chr_eqb. rewrite andb_true_iff, Ascii.eqb_eq, IH.
  split; [intros [-> ->]; reflexivity | intros H; inversion H; auto].
Qed.

Lemma str_eqb_refl (a : str) : str_eqb a a = true.
Proof. apply str_eqb_eq; reflexivity. Qed.

Lemma lines_eqb_eq (a b : list str) : lines_eqb a b = true <-> a = b.
Proof.
  revert b; induction a as [|x a IH]; intros [|y b]; simpl;
    try (split; [discriminate | congruence]); try tauto.
  rewrite andb_true_iff, str_eqb_eq, IH.
  split; [intros [-> ->]; reflexivity | intros H; inversion H; auto].
Qed.

Lemma lines_differ_iff (a b : list str) :
  negb (lines_eqb a b) = true <-> a <> b.
Proof.
  rewrite negb_true_iff, <- not_true_iff_false, lines_eqb_eq. tauto.
Qed.

(** ** The scan of [replace_region] *)

Section ScanFacts.
Variables (region_start region_end : str -> bool).
Variable replace_start : bool.

Let scan_with := scan_lines region_start region_end.

(** Outside a region, lines that do not match the start pattern are
    copied. *)
Lemma scan_copy cb pre rest acc k :
  Forall (fun l => region_start l = false) pre ->
  scan_with cb replace_start (pre ++ rest) (mk_scan acc false k)
  = scan_with cb replace_start rest (mk_scan (acc ++ pre) false k).
Proof.
  intros H; revert acc; induction H as [|l pre Hl _ IH]; intros acc; simpl.
  - now rewrite app_nil_r.
  - unfold scan_line; simpl. rewrite Hl. unfold scan_with in IH.
    rewrite IH, <- app_assoc. reflexivity.
Qed.

(** Inside a region, lines that do not match the end pattern are
    dropped and the callback is left alone. *)
Lemma scan_drop cb mid rest acc k :
  Forall (fun l => region_end l = false) mid ->
  scan_with cb replace_start (mid ++ rest) (mk_scan acc true k)
  = scan_with cb replace_start rest (mk_scan acc true k).
Proof.
  induction 1 as [|l mid Hl _ IH]; simpl; auto.
  unfold scan_line; simpl. now rewrite Hl.
Qed.

(** The scan only ever appends to [new_lines] and counts calls upwards:
    a scan started with lines already collected and [k] calls made is
    the scan started afresh with the callback's later calls. *)

Lemma scan_resume_gen cb ls acc k acc0 b k0 :
  scan_with cb replace_start ls (mk_scan (acc ++ acc0) b (k + k0))
  = resume acc k (scan_with (later k cb) replace_start ls (mk_scan acc0 b k0)).
Proof.
  revert acc0 b k0; induction ls as [|l ls IH]; intros acc0 b k0; simpl.
  - reflexivity.
  - unfold scan_line; simpl. destruct b.
    + destruct (region_end l).
      * unfold later at 1. destruct (cb (k + k0)) as [g|e]; simpl; auto.
        rewrite <- (IH ((acc0 ++ g) ++ [l]) false (S k0)).
        now rewrite Nat.add_succ_r, !app_assoc.
      * apply IH.
    + destruct (region_start l).
      * destruct replace_start; [apply IH|].
        rewrite <- app_assoc. apply IH.
      * rewrite <- app_assoc. apply IH.
Qed.

Lemma scan_resume cb ls acc k :
  scan_with cb replace_start ls (mk_scan acc false k)
  = resume acc k (scan_with (later k cb) replace_start ls scan_init).
Proof.
  pose proof (scan_resume_gen cb ls acc k [] false 0) as H.
  now rewrite app_nil_r, Nat.add_0_r in H.
Qed.

(** A closed region: copy, open, drop, call, close. *)
Lemma scan_region cb pre s mid e post g :
  Forall (fun l => region_start l = false) pre ->
  region_start s = true ->
  Forall (fun l => region_end l = false) mid ->
  region_end e = true ->
  cb 0 = Return g ->
  scan_with cb replace_start (pre ++ s :: mid ++ e :: post) scan_init
  = scan_with cb replace_start post
      (mk_scan (pre ++ (if replace_start then [] else [s]) ++ g ++ [e]) false 1).
Proof.
  intros Hpre Hs Hmid He Hg. unfold scan_init.
  rewrite scan_copy by assumption. simpl.
  unfold scan_line at 1; simpl. rewrite Hs.
  rewrite scan_drop by assumption. simpl.
  unfold scan_line at 1; simpl. rewrite He, Hg.
  f_equal. f_equal. destruct replace_start; now rewrite <- ?app_assoc.
Qed.

(** An open region: copy, open, drop to the end. *)
Lemma scan_open_from cb pre s rest acc k :
  Forall (fun l => region_start l = false) pre ->
  region_start s = true ->
  Forall (fun l => region_end l = false) rest ->
  scan_with cb replace_start (pre ++ s :: rest) (mk_scan acc false k)
  = Return (mk_scan (acc ++ pre ++ (if replace_start then [] else [s])) true k).
Proof.
  intros Hpre Hs Hrest.
  rewrite scan_copy by assumption. simpl.
  unfold scan_line at 1; simpl. rewrite Hs.
  rewrite <- (app_nil_r rest), scan_drop by assumption. simpl.
  destruct replace_start; now rewrite <- ?app_assoc, ?app_nil_r.
Qed.

Lemma scan_open cb pre s rest :
  Forall (fun l => region_start l = false) pre ->
  region_start s = true ->
  Forall (fun l => region_end l = false) rest ->
  scan_with cb replace_start (pre ++ s :: rest) scan_init
  = Return (mk_scan (pre ++ (if replace_start then [] else [s])) true 0).
Proof. intros. unfold scan_init. now rewrite scan_open_from. Qed.
End ScanFacts.

(** ** Files *)

Lemma assoc_set_assoc k n es : assoc k (set_assoc k n es) = Some n.
Proof.
  induction es as [|[k' n'] es IH]; simpl.
  - now rewrite str_eqb_refl.
  - destruct (str_eqb k k') eqn:E; simpl; rewrite ?str_eqb_refl, ?E; auto.
Qed.

(** Writing to an existing file succeeds, and the file then holds what was
    written. *)
Lemma store_existing comps content n c :
  lookup comps n = Some (File c) ->
  exists n', store comps content n = Some n'
             /\ lookup comps n' = Some (File content).
Proof.
  revert n; induction comps as [|k cs IH]; intros n; simpl.
  - intros [= ->]. eauto.
  - destruct n as [|es]; [discriminate|].
    destruct (assoc k es) as [sub|] eqn:E; [|discriminate].
    intros H. destruct (IH _ H) as (sub' & -> & Hl).
    eexists; split; [reflexivity|]. simpl. now rewrite assoc_set_assoc.
Qed.

Lemma read_file_inv p w text w' :
  read_file p w = (Return text, w') ->
  w' = w /\ lookup (split_path p) (cwd w) = Some (File text).
Proof.
  unfold read_file.
  destruct (lookup (split_path p) (cwd w)) as [[c|es]|]; intros [=]; subst; auto.
Qed.

Section RegionRun.
Variables (region_start region_end : str -> bool).
Variable callback : nat -> outcome (list str).
Variable replace_start : bool.

Let run := replace_region region_start region_end callback replace_start.
Let scan_of (text : str) :=
  scan_lines region_start region_end callback replace_start
    (readlines text) scan_init.

(** A call of [replace_region] on a readable file whose scan completes:
    the value returned, and the file left behind. *)
Lemma replace_region_run fn write_back w text st :
  read_file fn w = (Return text, w) ->
  scan_of text = Return st ->
  exists w',
    run fn write_back w
    = (Return (negb (lines_eqb (readlines text) (new_lines st))), w')
    /\ stdout w' = stdout w
    /\ (if write_back
        then read_file fn w' = (Return (writelines (new_lines st)), w')
        else w' = w).
Proof.
  intros Hr Hs. unfold run, replace_region, bind, lift.
  rewrite Hr. fold (scan_of text). rewrite Hs.
  destruct write_back.
  - apply read_file_inv in Hr as [_ Hl].
    destruct (store_existing _ (writelines (new_lines st)) _ _ Hl)
      as (n' & Hst & Hl').
    unfold write_lines. rewrite Hst. unfold ret.
    eexists; split; [reflexivity|]. split; [reflexivity|].
    unfold read_file; simpl. now rewrite Hl'.
  - unfold ret. eexists; repeat split.
Qed.

(** An exception of the callback leaves [replace_region] before the file
    is written. *)
Lemma replace_region_raise fn write_back w text e :
  read_file fn w = (Return text, w) ->
  scan_of text = Raise e ->
  run fn write_back w = (Raise e, w).
Proof.
  intros Hr Hs. unfold run, replace_region, bind, lift.
  rewrite Hr. fold (scan_of text). now rewrite Hs.
Qed.

(** Without [write_back] the world is left as it was, whatever
    happens. *)
Lemma replace_region_read_only fn w :
  snd (run fn false w) = w.
Proof.
  unfold run, replace_region, bind, lift, read_file, ret.
  destruct (lookup (split_path fn) (cwd w)) as [[c|es]|]; simpl; auto.
  destruct (scan_lines _ _ _ _ _ _); reflexivity.
Qed.
End RegionRun.

(** ** Claims on [replace_region] *)

(** C1 (as amended).  Let the first line matching the start pattern be
    [s], let [e] be the first later line matching the end pattern, and let
    the first call of the callback yield [g].  Then the new line list
    begins with the lines before [s] (followed by [s] itself exactly when
    [replace_start] is false), then [g], then [e] unchanged; it goes on
    with what the same scan makes of the lines after [e], with the
    callback's later calls.  Those lines are copied unchanged when none of
    them matches the start pattern.  On a readable file the call returns
    true exactly when the new line list differs from the lines read, and
    with [write_back] the file then holds the new lines. *)
Theorem replace_region_closed_region
    (region_start region_end : str -> bool)
    (callback : nat -> outcome (list str)) (replace_start : bool)
    (pre : list str) (s : str) (mid : list str) (e : str) (post g : list str) :
  Forall (fun l => region_start l = false) pre ->
  region_start s = true ->
  Forall (fun l => region_end l = false) mid ->
  region_end e = true ->
  callback 0 = Return g ->
  let lines := pre ++ s :: mid ++ e :: post in
  let head := pre ++ (if replace_start then [] else [s]) ++ g ++ [e] in
  scan_lines region_start region_end callback replace_start lines scan_init
  = resume head 1
      (scan_lines region_start region_end (later 1 callback) replace_start
         post scan_init)
  /\ (Forall (fun l => region_start l = false) post ->
      scan_lines region_start region_end callback replace_start lines scan_init
      = Return (mk_scan (head ++ post) false 1))
  /\ (forall fn write_back w text st,
        read_file fn w = (Return text, w) ->
        readlines text = lines ->
        scan_lines region_start region_end callback replace_start lines scan_init
        = Return st ->
        exists changed w',
          replace_region region_start region_end callback replace_start
            fn write_back w = (Return changed, w')
          /\ (changed = true <-> new_lines st <> lines)
          /\ (if write_back
              then read_file fn w' = (Return (writelines (new_lines st)), w')
              else w' = w)).
Proof.
  intros Hpre Hs Hmid He Hg lines head.
  assert (Hscan :
    scan_lines region_start region_end callback replace_start lines scan_init
    = resume head 1
        (scan_lines region_start region_end (later 1 callback) replace_start
           post scan_init)).
  { unfold lines.
    rewrite (scan_region region_start region_end replace_start callback
               pre s mid e post g Hpre Hs Hmid He Hg).
    apply scan_resume. }
  split; [exact Hscan|]. split.
  - intros Hpost. rewrite Hscan.
    pose proof (scan_copy region_start region_end replace_start
                  (later 1 callback) post [] [] 0 Hpost) as Hc.
    rewrite app_nil_r in Hc. unfold scan_init. rewrite Hc. reflexivity.
  - intros fn write_back w text st Hr Hl Hst. rewrite <- Hl in Hst.
    destruct (replace_region_run region_start region_end callback
                replace_start fn write_back w text st Hr Hst)
      as (w' & Hrun & _ & Hw).
    exists (negb (lines_eqb (readlines text) (new_lines st))), w'.
    split; [exact Hrun|]. split; [|exact Hw].
    rewrite lines_differ_iff, Hl. split; intros H ?; apply H; congruence.
Qed.

Lemma replace_region_closed_region_witness :
  scan_lines Re.count_start Re.empty one_count true two_counts scan_init
  = resume [ #"There are 1 lints included in this crate:" ++ [NL]; [NL] ] 1
      (scan_lines Re.count_start Re.empty (later 1 one_count) true
         [ #"There are 8 lints included in this crate:" ++ [NL]; [NL] ]
         scan_init).
Proof.
  refine (proj1 (replace_region_closed_region
            Re.count_start Re.empty one_count true
            [] (#"There are 7 lints included in this crate:" ++ [NL])
            [] [NL]
            [ #"There are 8 lints included in this crate:" ++ [NL]; [NL] ]
            [ #"There are 1 lints included in this crate:" ++ [NL] ]
            _ _ _ _ _)).
  - constructor.
  - reflexivity.
  - constructor.
  - reflexivity.
  - reflexivity.
Defined.

(** C1 as stated fails: the lines after the end-delimiter line are not
    always copied unchanged.  In [two_counts] the second count statement
    lies outside the first region and is replaced as well. *)
Lemma replace_region_closed_region_counterexample :
  ~ (forall (region_start region_end : str -> bool)
            (callback : nat -> outcome (list str)) (replace_start : bool)
            (pre : list str) (s : str) (mid : list str) (e : str)
            (post g : list str) (st : scan),
        Forall (fun l => region_start l = false) pre ->
        region_start s = true ->
        Forall (fun l => region_end l = false) mid ->
        region_end e = true ->
        callback 0 = Return g ->
        scan_lines region_start region_end callback replace_start
          (pre ++ s :: mid ++ e :: post) scan_init = Return st ->
        new_lines st
        = pre ++ (if replace_start then [] else [s]) ++ g ++ [e] ++ post).
Proof.
  intros H.
  specialize (H Re.count_start Re.empty one_count true
                [] (#"There are 7 lints included in this crate:" ++ [NL])
                [] [NL]
                [ #"There are 8 lints included in this crate:" ++ [NL]; [NL] ]
                [ #"There are 1 lints included in this crate:" ++ [NL] ]
                (mk_scan
                   [ #"There are 1 lints included in this crate:" ++ [NL]; [NL];
                     #"There are 1 lints included in this crate:" ++ [NL]; [NL] ]
                   false 2)
                (Forall_nil _) eq_refl (Forall_nil _) eq_refl eq_refl eq_refl).
  discriminate H.
Qed.

(** C2 (as amended).  When the first line matching the start pattern is
    followed by no
    line matching the end pattern, the new line list is the lines before
    the start line (and the start line itself when [replace_start] is
    false, the delimiter then not being part of what is replaced); every
    later line is dropped, the region still open at the end, and the
    callback is not called at all.  The same holds for a region opened
    later in the scan: the lines collected and the number of calls made
    before it stay as they are.  On a readable file with [write_back] the
    file is cut down to the lines kept. *)
Theorem replace_region_open_region
    (region_start region_end : str -> bool)
    (callback : nat -> outcome (list str)) (replace_start : bool)
    (pre : list str) (s : str) (rest : list str) :
  Forall (fun l => region_start l = false) pre ->
  region_start s = true ->
  Forall (fun l => region_end l = false) rest ->
  let lines := pre ++ s :: rest in
  let kept := pre ++ (if replace_start then [] else [s]) in
  scan_lines region_start region_end callback replace_start lines scan_init
  = Return (mk_scan kept true 0)
  /\ (forall acc k,
        scan_lines region_start region_end callback replace_start lines
          (mk_scan acc false k)
        = Return (mk_scan (acc ++ kept) true k))
  /\ (forall fn w text,
        read_file fn w = (Return text, w) ->
        readlines text = lines ->
        exists changed w',
          replace_region region_start region_end callback replace_start
            fn true w = (Return changed, w')
          /\ (changed = true <-> kept <> lines)
          /\ read_file fn w' = (Return (writelines kept), w')).
Proof.
  intros Hpre Hs Hrest lines kept.
  pose proof (scan_open region_start region_end replace_start callback
                pre s rest Hpre Hs Hrest) as Hscan.
  split; [exact Hscan|]. split.
  { intros acc k. now apply scan_open_from. }
  intros fn w text Hr Hl. fold lines in Hscan. rewrite <- Hl in Hscan.
  destruct (replace_region_run region_start region_end callback replace_start
              fn true w text _ Hr Hscan) as (w' & Hrun & _ & Hw).
  simpl in Hrun, Hw.
  exists (negb (lines_eqb (readlines text) kept)), w'.
  split; [exact Hrun|]. split; [|exact Hw].
  rewrite lines_differ_iff, Hl. split; intros H ?; apply H; congruence.
Qed.

(** A table header with no blank line after it, and a callback that would
    raise if it were called. *)
Lemma replace_region_open_region_witness :
  scan_lines Re.table_start Re.blank (fun _ => Raise ValueError) true
    [ #"# Lints" ++ [NL]; #"name | default | meaning" ++ [NL]; #"foo" ++ [NL] ]
    scan_init
  = Return (mk_scan [ #"# Lints" ++ [NL] ] true 0).
Proof.
  refine (proj1 (replace_region_open_region
            Re.table_start Re.blank (fun _ => Raise ValueError) true
            [ #"# Lints" ++ [NL] ] (#"name | default | meaning" ++ [NL])
            [ #"foo" ++ [NL] ] _ _ _)).
  - repeat constructor.
  - reflexivity.
  - repeat constructor.
Defined.

(** C2 as stated fails, in two ways.  The open region need not be the
    first one: of the three lines below the last is a count statement with
    no line after it, and the callback has been called once by then, for
    the region the first line opened.  And when [replace_start] is false
    the line that opens the region is kept: the output is not only the
    lines before it. *)
Lemma replace_region_open_region_counterexample :
  ~ (forall (region_start region_end : str -> bool)
            (callback : nat -> outcome (list str)) (replace_start : bool)
            (pre : list str) (s : str) (rest : list str) (st : scan),
        region_start s = true ->
        Forall (fun l => region_end l = false) rest ->
        scan_lines region_start region_end callback replace_start
          (pre ++ s :: rest) scan_init = Return st ->
        calls st = 0)
  /\ ~ (forall (region_start region_end : str -> bool)
              (callback : nat -> outcome (list str)) (replace_start : bool)
              (pre : list str) (s : str) (rest : list str) (st : scan),
          Forall (fun l => region_start l = false) pre ->
          region_start s = true ->
          Forall (fun l => region_end l = false) rest ->
          scan_lines region_start region_end callback replace_start
            (pre ++ s :: rest) scan_init = Return st ->
          new_lines st = pre).
Proof.
  split; intros H.
  - specialize (H Re.count_start Re.empty one_count true
                  [ #"There are 7 lints included in this crate:" ++ [NL];
                    [NL] ]
                  (#"There are 8 lints included in this crate:" ++ [NL])
                  []
                  (mk_scan
                     [ #"There are 1 lints included in this crate:" ++ [NL];
                       [NL] ]
                     true 1)
                  eq_refl (Forall_nil _) eq_refl).
    discriminate H.
  - assert (E : new_lines
                  (mk_scan
                     [ #"# Lints" ++ [NL];
                       #"name | default | meaning" ++ [NL] ]
                     true 0)
                = [ #"# Lints" ++ [NL] ]);
      [|discriminate E].
    apply (H Re.table_start Re.blank one_count false
             [ #"# Lints" ++ [NL] ]
             (#"name | default | meaning" ++ [NL])
             [ #"foo" ++ [NL] ]).
    + repeat constructor.
    + reflexivity.
    + repeat constructor.
    + reflexivity.
Qed.

(** ** The order on strings *)

Lemma nat_of_ascii_inj x y : nat_of_ascii x = nat_of_ascii y -> x = y.
Proof.
  intros H. rewrite <- (ascii_nat_embedding x), <- (ascii_nat_embedding y).
  now rewrite H.
Qed.

Lemma str_compare_eq a b : str_compare a b = Eq <-> a = b.
Proof.
  revert b; induction a as [|x a IH]; intros [|y b]; simpl;
    try (split; [discriminate | congruence]); try tauto.
  destruct (Nat.compare_spec (nat_of_ascii x) (nat_of_ascii y)) as [E|L|L].
  - apply nat_of_ascii_inj in E; subst y. rewrite IH.
    split; [congruence | intros [=]; auto].
  - split; [discriminate | intros [=]; subst; lia].
  - split; [discriminate | intros [=]; subst; lia].
Qed.

Lemma str_compare_lt a b : str_compare a b = Lt <-> lex_lt a b.
Proof.
  revert b; induction a as [|x a IH]; intros [|y b]; simpl.
  - split; [discriminate | inversion 1].
  - split; [constructor | reflexivity].
  - split; [discriminate | inversion 1].
  - destruct (Nat.compare_spec (nat_of_ascii x) (nat_of_ascii y)) as [E|L|L].
    + apply nat_of_ascii_inj in E; subst y. rewrite IH.
      split; [now constructor | inversion 1; subst; auto; lia].
    + split; [now constructor | reflexivity].
    + split; [discriminate | inversion 1; subst; lia].
Qed.

Lemma str_compare_sym a b : str_compare b a = CompOpp (str_compare a b).
Proof.
  revert b; induction a as [|x a IH]; intros [|y b]; simpl; auto.
  rewrite (Nat.compare_antisym (nat_of_ascii x) (nat_of_ascii y)).
  destruct (nat_of_ascii x ?= nat_of_ascii y); simpl; auto.
Qed.

Lemma lex_lt_trans a b c : lex_lt a b -> lex_lt b c -> lex_lt a c.
Proof.
  intros H; revert c; induction H; intros c' Hc; inversion Hc; subst;
    try (constructor; auto; lia).
Qed.

Lemma CompOpp_move c d : CompOpp c = d -> c = CompOpp d.
Proof. intros <-. now destruct c. Qed.

#[global] Instance str_ordering : Ordering str_compare.
Proof.
  split; [intros; apply str_compare_sym|].
  assert (Hlt : forall x y z, str_compare x y = Lt -> str_compare y z = Lt ->
                              str_compare x z = Lt).
  { intros x y z. rewrite !str_compare_lt. apply lex_lt_trans. }
  intros [] x y z Hxy Hyz.
  - apply str_compare_eq in Hxy, Hyz. subst. now apply str_compare_eq.
  - eauto.
  - rewrite str_compare_sym in Hxy, Hyz. apply CompOpp_move in Hxy, Hyz.
    rewrite str_compare_sym, (Hlt z y x); auto.
Qed.

Lemma str_not_lt_le a b : str_compare b a <> Lt <-> lex_le a b.
Proof.
  unfold lex_le. rewrite <- str_compare_lt, <- str_compare_eq.
  rewrite (str_compare_sym a b).
  destruct (str_compare a b); simpl; split; intros H; try tauto;
    try congruence; destruct H; discriminate.
Qed.

(** ** Orderings from sort keys and tuples *)

Section KeyOrdering.
Context {A K : Type} (key : A -> K) (cmp : K -> K -> comparison).
Context `{!Ordering cmp}.

Lemma key_ordering : Ordering (fun a b => cmp (key a) (key b)).
Proof.
  split; intros.
  - apply cmp_sym.
  - eapply cmp_trans; eauto.
Qed.
End KeyOrdering.

Section LexOrdering.
Context {A : Type} (key : A -> str) (rest : A -> A -> comparison).
Context `{!Ordering rest}.

Lemma lex_ordering :
  Ordering (fun a b => lex (str_compare (key a) (key b)) (rest a b)).
Proof.
  split.
  - intros x y. rewrite str_compare_sym, (cmp_sym (cmp := rest) x y).
    now destruct (str_compare (key x) (key y)).
  - intros c x y z. unfold lex.
    assert (Hrefl : forall k, str_compare k k = Eq)
      by (intros k; now apply str_compare_eq).
    destruct (str_compare (key x) (key y)) eqn:Exy;
      destruct (str_compare (key y) (key z)) eqn:Eyz;
      intros H1 H2; try congruence.
    + apply str_compare_eq in Exy, Eyz. rewrite Exy, Eyz, Hrefl.
      eapply cmp_trans; eauto.
    + apply str_compare_eq in Exy. now rewrite Exy, Eyz.
    + apply str_compare_eq in Exy. now rewrite Exy, Eyz.
    + apply str_compare_eq in Eyz. now rewrite <- Eyz, Exy.
    + now rewrite (cmp_trans Lt _ _ _ Exy Eyz).
    + apply str_compare_eq in Eyz. now rewrite <- Eyz, Exy.
    + now rewrite (cmp_trans Gt _ _ _ Exy Eyz).
Qed.
End LexOrdering.

#[global] Instance lint_ordering : Ordering lint_compare.
Proof.
  unfold lint_compare.
  apply (lex_ordering lint_module). apply (lex_ordering lint_name).
  apply (lex_ordering lint_level). apply (key_ordering lint_desc str_compare).
Qed.

(** ** [sorted] *)

Section SortedFacts.
Context {A : Type} (cmp : A -> A -> comparison) `{!Ordering cmp}.

Let ltb := ltb_of cmp.
Let le (a b : A) : Prop := cmp b a <> Lt.

Lemma insert_perm x l : Permutation (insert ltb x l) (x :: l).
Proof.
  induction l as [|y l IH]; simpl; auto.
  destruct (ltb y x); auto.
  rewrite IH. apply perm_swap.
Qed.

Lemma sorted_perm l : Permutation (sorted ltb l) l.
Proof.
  induction l as [|x l IH]; simpl; auto.
  rewrite insert_perm. now constructor.
Qed.

Lemma le_trans a b c : le a b -> le b c -> le a c.
Proof.
  unfold le. intros Hab Hbc Hca.
  destruct (cmp c b) eqn:Ecb; [| congruence |].
  - destruct (cmp b a) eqn:Eba; [| congruence |].
    + rewrite (cmp_trans Eq _ _ _ Ecb Eba) in Hca. discriminate.
    + pose proof (cmp_sym b a) as S1. rewrite Eba in S1. simpl in S1.
      pose proof (cmp_trans Lt _ _ _ Hca S1). congruence.
  - pose proof (cmp_sym c b) as S1. rewrite Ecb in S1. simpl in S1.
    pose proof (cmp_trans Lt _ _ _ S1 Hca). congruence.
Qed.

Lemma insert_sorted x l :
  StronglySorted le l -> StronglySorted le (insert ltb x l).
Proof.
  induction 1 as [|y l Hs IH Hy]; simpl.
  - repeat constructor.
  - unfold ltb at 1, ltb_of. destruct (cmp y x) eqn:E.
    + constructor; [now constructor|].
      assert (Hxy : le x y) by (unfold le; congruence).
      constructor; auto.
      eapply Forall_impl; [|exact Hy]. intros z. now apply le_trans.
    + constructor; auto.
      eapply Permutation_Forall; [symmetry; apply insert_perm|].
      constructor; auto.
      unfold le. rewrite (cmp_sym y x), E. discriminate.
    + constructor; [now constructor|].
      assert (Hxy : le x y) by (unfold le; congruence).
      constructor; auto.
      eapply Forall_impl; [|exact Hy]. intros z. now apply le_trans.
Qed.

Lemma sorted_sorted l : StronglySorted le (sorted ltb l).
Proof.
  induction l as [|x l IH]; simpl; [constructor|].
  now apply insert_sorted.
Qed.
End SortedFacts.

Lemma StronglySorted_weaken {A} (R S : A -> A -> Prop) l :
  (forall a b, R a b -> S a b) -> StronglySorted R l -> StronglySorted S l.
Proof.
  intros H; induction 1; constructor; auto.
  eapply Forall_impl; [|eassumption]. auto.
Qed.

(** The rows of the table, in the order of their names. *)
Lemma sorted_by_name lints :
  Permutation (sorted name_ltb lints) lints
  /\ StronglySorted (fun a b => lex_le (lint_name a) (lint_name b))
       (sorted name_ltb lints).
Proof.
  pose (cmp := fun a b => str_compare (lint_name a) (lint_name b)).
  assert (O : Ordering cmp) by apply (key_ordering lint_name str_compare).
  change name_ltb with (ltb_of cmp). split.
  - apply sorted_perm.
  - eapply StronglySorted_weaken; [|apply (sorted_sorted cmp)].
    intros a b. apply str_not_lt_le.
Qed.

(** The order of whole tuples, module first. *)
Lemma lint_compare_lt a b : lint_compare a b = Lt <-> tuple_lt a b.
Proof.
  unfold lint_compare, tuple_lt, lex.
  rewrite <- !str_compare_lt.
  rewrite <- (str_compare_eq (lint_module a)), <- (str_compare_eq (lint_name a)),
    <- (str_compare_eq (lint_level a)).
  destruct (str_compare (lint_module a) (lint_module b));
    destruct (str_compare (lint_name a) (lint_name b));
    destruct (str_compare (lint_level a) (lint_level b));
    destruct (str_compare (lint_desc a) (lint_desc b));
    intuition congruence.
Qed.

Lemma lint_compare_eq a b : lint_compare a b = Eq <-> a = b.
Proof.
  destruct a as [m n l d], b as [m' n' l' d'].
  unfold lint_compare, lex; simpl. split.
  - destruct (str_compare m m') eqn:E1; try discriminate.
    destruct (str_compare n n') eqn:E2; try discriminate.
    destruct (str_compare l l') eqn:E3; try discriminate.
    intros E4. apply str_compare_eq in E1, E2, E3, E4. congruence.
  - intros [= -> -> -> ->].
    now rewrite !(proj2 (str_compare_eq _ _) eq_refl).
Qed.

Lemma lint_not_lt_le a b : lint_compare b a <> Lt <-> tuple_le a b.
Proof.
  unfold tuple_le. rewrite <- lint_compare_lt, <- lint_compare_eq.
  rewrite (cmp_sym (cmp := lint_compare) a b).
  destruct (lint_compare a b); simpl; split; intros H; try tauto;
    try congruence; destruct H; discriminate.
Qed.

Lemma sorted_by_tuple lints :
  Permutation (sorted lint_ltb lints) lints
  /\ StronglySorted tuple_le (sorted lint_ltb lints).
Proof.
  change lint_ltb with (ltb_of lint_compare). split.
  - apply sorted_perm.
  - eapply StronglySorted_weaken; [|apply (sorted_sorted lint_compare)].
    intros a b. apply lint_not_lt_le.
Qed.

(** ** [max] of a sequence of lengths *)

Lemma fold_left_max_spec l x :
  x <= fold_left Nat.max l x
  /\ Forall (fun n => n <= fold_left Nat.max l x) l
  /\ (fold_left Nat.max l x = x \/ In (fold_left Nat.max l x) l).
Proof.
  revert x; induction l as [|y l IH]; intros x; simpl.
  - split; [lia|]. split; [constructor | now left].
  - destruct (IH (Nat.max x y)) as (H1 & H2 & H3).
    split; [lia|]. split.
    + constructor; [lia | exact H2].
    + destruct H3 as [H3|H3]; [|right; right; exact H3].
      destruct (Nat.max_spec x y) as [[_ E]|[_ E]]; rewrite E in *.
      * right; left. now symmetry.
      * now left.
Qed.

Lemma max_of_spec l w :
  max_of l = Some w -> Forall (fun n => n <= w) l /\ In w l.
Proof.
  destruct l as [|x l]; simpl; [discriminate|]. intros [= <-].
  destruct (fold_left_max_spec l x) as (H1 & H2 & H3).
  split; [constructor; assumption |].
  destruct H3 as [H3|H3]; [left; now symmetry | now right].
Qed.

Lemma max_of_some l : l <> [] -> exists w, max_of l = Some w.
Proof. destruct l; [congruence | simpl; eauto]. Qed.

(** ** Claims on the renderers *)

Lemma In_map_Exists {A} (f : A -> nat) l w :
  In w (map f l) -> Exists (fun a => f a = w) l.
Proof.
  intros H. apply in_map_iff in H as (a & E & Hin).
  apply Exists_exists. eauto.
Qed.

Lemma lengths_max {A} (f : A -> nat) l w :
  max_of (map f l) = Some w ->
  Forall (fun a => f a <= w) l /\ Exists (fun a => f a = w) l.
Proof.
  intros H. apply max_of_spec in H as [H1 H2].
  split; [now apply Forall_map in H1 | now apply In_map_Exists].
Qed.

(** On a non-empty list both widths exist and the table is rendered. *)
Lemma gen_table_some lints :
  lints <> [] ->
  exists w_name w_desc,
    max_of (map (fun l => length (lint_name l)) lints) = Some w_name
    /\ max_of (map (fun l => length (lint_desc l)) lints) = Some w_desc
    /\ gen_table lints
       = Return (table_header w_name
                 :: table_underline w_name w_desc
                 :: map (table_row w_name) (sorted name_ltb lints)).
Proof.
  intros Hne.
  destruct (max_of_some (map (fun l => length (lint_name l)) lints))
    as [w_name Hn]; [now destruct lints|].
  destruct (max_of_some (map (fun l => length (lint_desc l)) lints))
    as [w_desc Hd]; [now destruct lints|].
  exists w_name, w_desc. repeat split; auto.
  unfold gen_table. now rewrite Hn, Hd.
Qed.

(** C5 (as amended).  On a non-empty list of lints the table renderer
    yields: a header,
    the label [name] left-justified (padded with spaces on its right) to
    the greatest name length and followed by [ | default | meaning]; an
    underline of dashes of the name width, 7 and the greatest description
    length, joined by [-|-]; then one row per lint, the lints in ascending
    lexicographic order of their names, each row the name left-justified
    to the name width, [ | ], the level left-justified to width 7, [ | ]
    and the description.  Every line ends in a newline. *)
Theorem gen_table_nonempty (lints : list lint) :
  lints <> [] ->
  exists (w_name w_desc : nat) (rows : list lint),
    Forall (fun l => length (lint_name l) <= w_name) lints
    /\ Exists (fun l => length (lint_name l) = w_name) lints
    /\ Forall (fun l => length (lint_desc l) <= w_desc) lints
    /\ Exists (fun l => length (lint_desc l) = w_desc) lints
    /\ Permutation rows lints
    /\ StronglySorted (fun a b => lex_le (lint_name a) (lint_name b)) rows
    /\ gen_table lints
       = Return
           ((padded w_name #"name" ++ #" | default | meaning" ++ [NL])
            :: (dashes w_name ++ #"-|-" ++ dashes 7 ++ #"-|-"
                ++ dashes w_desc ++ [NL])
            :: map (fun l =>
                      padded w_name (lint_name l) ++ #" | "
                      ++ padded 7 (lint_level l) ++ #" | "
                      ++ lint_desc l ++ [NL])
                 rows).
Proof.
  intros Hne.
  destruct (gen_table_some lints Hne) as (w_name & w_desc & Hn & Hd & Ht).
  destruct (lengths_max _ _ _ Hn) as [Hn1 Hn2].
  destruct (lengths_max _ _ _ Hd) as [Hd1 Hd2].
  destruct (sorted_by_name lints) as [Hp Hs].
  exists w_name, w_desc, (sorted name_ltb lints).
  repeat (split; [assumption|]).
  exact Ht.
Qed.

Lemma gen_table_nonempty_witness :
  exists (w_name w_desc : nat) (rows : list lint),
    Forall (fun l => length (lint_name l) <= w_name) two_lints
    /\ Exists (fun l => length (lint_name l) = w_name) two_lints
    /\ Forall (fun l => length (lint_desc l) <= w_desc) two_lints
    /\ Exists (fun l => length (lint_desc l) = w_desc) two_lints
    /\ Permutation rows two_lints
    /\ StronglySorted (fun a b => lex_le (lint_name a) (lint_name b)) rows
    /\ gen_table two_lints
       = Return
           ((padded w_name #"name" ++ #" | default | meaning" ++ [NL])
            :: (dashes w_name ++ #"-|-" ++ dashes 7 ++ #"-|-"
                ++ dashes w_desc ++ [NL])
            :: map (fun l =>
                      padded w_name (lint_name l) ++ #" | "
                      ++ padded 7 (lint_level l) ++ #" | "
                      ++ lint_desc l ++ [NL])
                 rows).
Proof.
  apply (gen_table_nonempty two_lints). discriminate.
Defined.

(** C5 as stated fails: the fields are not padded on their left.  For
    [two_lints] no widths and no arrangement of the rows make the table
    the one with the label, the names and the levels padded on the left;
    the header begins with the label, not with spaces. *)
Lemma gen_table_nonempty_counterexample :
  ~ (exists (w_name w_desc : nat) (rows : list lint),
        Forall (fun l => length (lint_name l) <= w_name) two_lints
        /\ Exists (fun l => length (lint_name l) = w_name) two_lints
        /\ Forall (fun l => length (lint_desc l) <= w_desc) two_lints
        /\ Exists (fun l => length (lint_desc l) = w_desc) two_lints
        /\ Permutation rows two_lints
        /\ StronglySorted (fun a b => lex_le (lint_name a) (lint_name b)) rows
        /\ gen_table two_lints
           = Return
               ((left_padded w_name #"name" ++ #" | default | meaning" ++ [NL])
                :: (dashes w_name ++ #"-|-" ++ dashes 7 ++ #"-|-"
                    ++ dashes w_desc ++ [NL])
                :: map (fun l =>
                          left_padded w_name (lint_name l) ++ #" | "
                          ++ left_padded 7 (lint_level l) ++ #" | "
                          ++ lint_desc l ++ [NL])
                     rows)).
Proof.
  intros (w_name & w_desc & rows & Hn & _ & _ & _ & _ & _ & E).
  assert (Hw : 7 <= w_name).
  { apply Forall_inv in Hn. exact Hn. }
  change (gen_table two_lints)
    with (Return [ #"name    | default | meaning" ++ [NL];
                   #"--------|---------|--------" ++ [NL];
                   #"foo     | allow   | x" ++ [NL];
                   #"foo_bar | warn    | a thing" ++ [NL] ]) in E.
  injection E as E _. unfold left_padded in E.
  destruct w_name as [|[|[|[|[|w_name]]]]]; try (simpl in Hw; lia).
  discriminate E.
Qed.

(** The table of [two_lints], as text. *)
Example gen_table_two_lints :
  gen_table two_lints
  = Return [ #"name    | default | meaning" ++ [NL];
             #"--------|---------|--------" ++ [NL];
             #"foo     | allow   | x" ++ [NL];
             #"foo_bar | warn    | a thing" ++ [NL] ].
Proof. reflexivity. Qed.

(** C10.  The table renderer raises [ValueError] on the empty list before
    any line is produced, and produces at least one line exactly when the
    list is not empty; the group renderer yields no line for the empty
    list. *)
Theorem gen_table_partial :
  gen_table [] = Raise ValueError
  /\ (forall lints,
        (exists line lines, gen_table lints = Return (line :: lines))
        <-> lints <> [])
  /\ gen_group [] = [].
Proof.
  split; [reflexivity|]. split; [|reflexivity].
  intros lints. split.
  - intros (line & lines & H) ->. discriminate H.
  - intros Hne. destruct (gen_table_some lints Hne) as (w & w' & _ & _ & H).
    rewrite H. eauto.
Qed.

(** A lint of a smaller module sorts first, whatever the names. *)
Lemma sorted_two_by_module a b :
  lex_lt (lint_module a) (lint_module b) ->
  sorted lint_ltb [a; b] = [a; b] /\ sorted lint_ltb [b; a] = [a; b].
Proof.
  intros H.
  assert (Hab : lint_compare a b = Lt) by (apply lint_compare_lt; now left).
  assert (Hba : lint_compare b a = Gt)
    by (rewrite (cmp_sym (cmp := lint_compare) a b), Hab; reflexivity).
  unfold sorted; simpl. unfold lint_ltb. now rewrite Hab, Hba.
Qed.

(** C6.  The group renderer yields one line per lint, the lints in
    ascending order of the whole tuple (module, name, level, description),
    the module being the primary key; a line is eight spaces, the module,
    [::], the name in upper case and a comma (and a newline).  In
    particular, of two lints the one with the lexicographically smaller
    module comes first, whatever their names and whatever their order in
    the list. *)
Theorem gen_group_sorted (lints : list lint) :
  (exists rows : list lint,
      Permutation rows lints
      /\ StronglySorted tuple_le rows
      /\ gen_group lints
         = map (fun l =>
                  #"        " ++ lint_module l ++ #"::"
                  ++ upper (lint_name l) ++ #"," ++ [NL])
             rows)
  /\ length (gen_group lints) = length lints
  /\ (forall a b,
        lex_lt (lint_module a) (lint_module b) ->
        gen_group [a; b] = [group_line a; group_line b]
        /\ gen_group [b; a] = [group_line a; group_line b]).
Proof.
  destruct (sorted_by_tuple lints) as [Hp Hs]. split; [|split].
  - exists (sorted lint_ltb lints). repeat split; assumption.
  - unfold gen_group. rewrite length_map. now apply Permutation_length.
  - intros a b H. destruct (sorted_two_by_module a b H) as [E1 E2].
    unfold gen_group. now rewrite E1, E2.
Qed.

Lemma gen_group_sorted_witness :
  gen_group [lint_ba; lint_az]
  = [ #"        a::Z," ++ [NL]; #"        b::A," ++ [NL] ].
Proof.
  refine (proj2 (proj2 (proj2 (gen_group_sorted [])) lint_az lint_ba _)).
  apply lex_lt_head. apply Nat.ltb_lt. reflexivity.
Defined.

(** ** The collector *)

Lemma list_ind2 {A} (P : list A -> Prop) :
  P [] -> (forall x, P [x]) ->
  (forall x y l, P l -> P (y :: l) -> P (x :: y :: l)) ->
  forall l, P l.
Proof.
  intros H0 H1 H2 l.
  assert (H : P l /\ forall x, P (x :: l)); [|tauto].
  induction l as [|y l [IH1 IH2]]; split; auto.
Qed.

Lemma chr_eqb_eq a b : chr_eqb a b = true <-> a = b.
Proof. apply Ascii.eqb_eq. Qed.

Lemma chr_eqb_neq a b : chr_eqb a b = false <-> a <> b.
Proof. apply Ascii.eqb_neq. Qed.

(** *** Levels *)

Lemma level_alt_levels s lv r :
  Re.level_alt s = Some (lv, r) ->
  In lv [ #"Forbid"; #"Deny"; #"Warn"; #"Allow" ].
Proof.
  unfold Re.level_alt.
  destruct (Re.lit #"Forbid" s); [intros [= <- _]; simpl; auto|].
  destruct (Re.lit #"Deny" s); [intros [= <- _]; simpl; auto|].
  destruct (Re.lit #"Warn" s); [intros [= <- _]; simpl; auto|].
  destruct (Re.lit #"Allow" s); [intros [= <- _]; simpl; auto 6|].
  discriminate.
Qed.

Ltac step_match :=
  match goal with
  | |- context [match ?e with Some _ => _ | None => None end] =>
      destruct e eqn:?; [|discriminate]
  | |- context [let (_, _) := ?e in _] => destruct e eqn:?
  | |- context [match ?e with (_, _) => _ end] => destruct e eqn:?
  end.

Lemma match_at_level s m r :
  Re.match_at s = Some (m, r) ->
  In (Re.level_group m) [ #"Forbid"; #"Deny"; #"Warn"; #"Allow" ].
Proof.
  unfold Re.match_at. repeat step_match.
  intros [= <- _]. simpl. eapply level_alt_levels; eassumption.
Qed.

Lemma finditer_aux_Forall (P : Re.lint_match -> Prop) :
  (forall s m r, Re.match_at s = Some (m, r) -> P m) ->
  forall s skip, Forall P (Re.finditer_aux skip s).
Proof.
  intros H s; induction s as [|c s IH]; intros skip; simpl; [constructor|].
  destruct skip; [|apply IH].
  destruct (Re.match_at (c :: s)) as [[m r]|] eqn:E; [|apply IH].
  constructor; [eauto | apply IH].
Qed.

Lemma collect_code_app lints fn code :
  collect_code lints fn code
  = lints ++ map (lint_of_match fn) (Re.finditer code).
Proof.
  unfold collect_code. generalize (Re.finditer code) as ms.
  intros ms; revert lints; induction ms as [|m ms IH]; intros lints; simpl.
  - now rewrite app_nil_r.
  - now rewrite IH, <- app_assoc.
Qed.

Lemma lint_of_match_level_ok fn m :
  In (Re.level_group m) [ #"Forbid"; #"Deny"; #"Warn"; #"Allow" ] ->
  level_ok (lint_of_match fn m).
Proof.
  unfold level_ok, levels; simpl.
  intros [<-|[<-|[<-|[<-|[]]]]]; simpl; auto 6.
Qed.

Lemma collect_code_levels lints fn code :
  Forall level_ok lints -> Forall level_ok (collect_code lints fn code).
Proof.
  intros H. rewrite collect_code_app. apply Forall_app; split; [exact H|].
  apply Forall_map.
  apply (finditer_aux_Forall (fun m => level_ok (lint_of_match fn m))).
  intros s m r Hm. apply lint_of_match_level_ok.
  eapply match_at_level; eassumption.
Qed.

(** *** Loops preserve invariants *)

Lemma for_each_invariant {A S} (I : S -> Prop) (body : S -> A -> M S) xs :
  (forall s x w s' w', I s -> body s x w = (Return s', w') -> I s') ->
  forall s w s' w', I s -> for_each xs body s w = (Return s', w') -> I s'.
Proof.
  intros Hb; induction xs as [|x xs IH]; intros s w s' w' Hs; simpl.
  - unfold ret. now intros [= <- _].
  - unfold bind. destruct (body s x w) as [[s1|e] w1] eqn:E; [|discriminate].
    apply IH. eapply Hb; eassumption.
Qed.

Lemma collect_levels lints fn w lints' w' :
  Forall level_ok lints ->
  collect lints fn w = (Return lints', w') ->
  Forall level_ok lints'.
Proof.
  unfold collect, bind, ret. intros H.
  destruct (read_file fn w) as [[code|e] w1]; [|discriminate].
  intros [= <- _]. now apply collect_code_levels.
Qed.

(** The collector on the example checkout: files that do not end in
    [.rs] are skipped, sub-directories are visited. *)
Example collect_all_demo :
  collect_all demo_world = (Return demo_lints, demo_world).
Proof. reflexivity. Qed.

(** C9.  Every lint the collector produces has one of the four lower-case
    levels: collecting from a text adds only such lints, and after a run
    of the collector over a source tree the whole collection consists of
    such lints. *)
Theorem collected_levels :
  (forall lints fn code,
      Forall level_ok lints -> Forall level_ok (collect_code lints fn code))
  /\ (forall w lints w',
        collect_all w = (Return lints, w') -> Forall level_ok lints).
Proof.
  split; [apply collect_code_levels|].
  intros w lints w'. unfold collect_all, bind, os_walk.
  apply (for_each_invariant (Forall level_ok)); [|constructor].
  intros s [[root dirs] files] w1 s' w1' Hs.
  apply (for_each_invariant (Forall level_ok)); [|exact Hs].
  intros s2 fn w2 s2' w2' Hs2.
  destruct (endswith fn #".rs").
  - now apply collect_levels.
  - unfold ret. now intros [= <- _].
Qed.

Lemma collected_levels_witness : Forall level_ok demo_lints.
Proof.
  apply (proj2 collected_levels demo_world demo_lints demo_world).
  reflexivity.
Defined.

(** *** Descriptions: line continuations *)

(** The whitespace after a continuation is skipped up to the first
    character that is not whitespace. *)
Lemma nl_aux_skip ws rest :
  Forall (fun c => is_space c = true) ws ->
  no_leading_space rest ->
  Re.nl_escape_sub_aux true (ws ++ rest) = Re.nl_escape_sub_aux false rest.
Proof.
  intros Hws Hrest. induction Hws as [|c ws Hc _ IH]; simpl.
  - destruct rest as [|c rest]; [reflexivity|].
    simpl. now rewrite (Hrest c rest eq_refl).
  - now rewrite Hc.
Qed.

Lemma span_space s :
  exists ws rest,
    s = ws ++ rest
    /\ Forall (fun c => is_space c = true) ws
    /\ no_leading_space rest
    /\ length rest <= length s.
Proof.
  induction s as [|c s (ws & rest & E & Hws & Hrest & Hlen)].
  - exists [], []. repeat split; auto. intros c s' [=].
  - destruct (is_space c) eqn:Ec.
    + exists (c :: ws), rest. subst s. repeat split; auto.
      simpl. rewrite length_app. lia.
    + exists [], (c :: s). repeat split; auto.
      intros c' s' [= <- _]. exact Ec.
Qed.

Lemma nl_joined_bounded n :
  forall s, length s <= n -> joined s (Re.nl_escape_sub s).
Proof.
  unfold Re.nl_escape_sub.
  induction n as [|n IH]; intros s Hn.
  - destruct s; [constructor | simpl in Hn; lia].
  - destruct s as [|c s]; [constructor|]. simpl in Hn. simpl.
    destruct (chr_eqb c BSL) eqn:Ec.
    + apply chr_eqb_eq in Ec; subst c.
      destruct s as [|d s]; [repeat constructor; intros _ s' [=]|].
      destruct (chr_eqb d NL) eqn:Ed.
      * apply chr_eqb_eq in Ed; subst d. simpl in Hn.
        destruct (span_space s) as (ws & rest & E & Hws & Hrest & Hlen).
        subst s. rewrite nl_aux_skip by assumption.
        constructor; auto. apply IH. lia.
      * constructor; [|apply IH; simpl in *; lia].
        intros _ s' [= -> _]. apply chr_eqb_neq in Ed. now apply Ed.
    + constructor; [|apply IH; lia].
      intros ->. discriminate Ec.
Qed.

Lemma nl_joined d : joined d (Re.nl_escape_sub d).
Proof. apply (nl_joined_bounded (length d)). lia. Qed.

(** A continuation between two parts joins them. *)
Lemma nl_aux_continuation ws b :
  Forall (fun c => is_space c = true) ws ->
  no_leading_space b ->
  forall a f,
    Re.nl_escape_sub_aux f (a ++ BSL :: NL :: ws ++ b)
    = Re.nl_escape_sub_aux f a ++ Re.nl_escape_sub_aux false b.
Proof.
  intros Hws Hb.
  assert (H0 : forall f,
    Re.nl_escape_sub_aux f (BSL :: NL :: ws ++ b)
    = Re.nl_escape_sub_aux false b).
  { intros f. simpl. rewrite andb_false_r. simpl. now apply nl_aux_skip. }
  induction a as [| x | x y a IH1 IH2] using list_ind2; intros f.
  - apply H0.
  - simpl app. simpl Re.nl_escape_sub_aux at 2.
    change (Re.nl_escape_sub_aux f (x :: BSL :: NL :: ws ++ b))
      with (if f && is_space x
            then Re.nl_escape_sub_aux true (BSL :: NL :: ws ++ b)
            else if chr_eqb x BSL
                 then x :: Re.nl_escape_sub_aux false (BSL :: NL :: ws ++ b)
                 else x :: Re.nl_escape_sub_aux false (BSL :: NL :: ws ++ b)).
    rewrite !H0.
    destruct (f && is_space x); [reflexivity|].
    destruct (chr_eqb x BSL); reflexivity.
  - change (Re.nl_escape_sub_aux f ((x :: y :: a) ++ BSL :: NL :: ws ++ b))
      with (if f && is_space x
            then Re.nl_escape_sub_aux true ((y :: a) ++ BSL :: NL :: ws ++ b)
            else if chr_eqb x BSL
                 then if chr_eqb y NL
                      then Re.nl_escape_sub_aux true (a ++ BSL :: NL :: ws ++ b)
                      else x :: Re.nl_escape_sub_aux false
                                  ((y :: a) ++ BSL :: NL :: ws ++ b)
                 else x :: Re.nl_escape_sub_aux false
                             ((y :: a) ++ BSL :: NL :: ws ++ b)).
    change (Re.nl_escape_sub_aux f (x :: y :: a))
      with (if f && is_space x
            then Re.nl_escape_sub_aux true (y :: a)
            else if chr_eqb x BSL
                 then if chr_eqb y NL
                      then Re.nl_escape_sub_aux true a
                      else x :: Re.nl_escape_sub_aux false (y :: a)
                 else x :: Re.nl_escape_sub_aux false (y :: a)).
    rewrite !IH1, !IH2.
    destruct (f && is_space x); [reflexivity|].
    destruct (chr_eqb x BSL); [destruct (chr_eqb y NL)|]; reflexivity.
Qed.

(** A text without newline has no continuation. *)
Lemma nl_no_newline s : ~ In NL s -> Re.nl_escape_sub s = s.
Proof.
  unfold Re.nl_escape_sub.
  induction s as [|c s IH]; intros Hn; [reflexivity|]. simpl.
  assert (Hs : ~ In NL s) by (intros H; apply Hn; now right).
  destruct (chr_eqb c BSL); [|now rewrite IH].
  destruct s as [|d s]; [reflexivity|].
  destruct (chr_eqb d NL) eqn:Ed; [|now rewrite IH].
  apply chr_eqb_eq in Ed; subst d. exfalso. apply Hs. now left.
Qed.

(** *** Descriptions: escaped quotes *)

Lemma quote_unescaped s : unescaped s (Re.replace_escaped_quote s).
Proof.
  induction s as [| x | x y s IH1 IH2] using list_ind2.
  - constructor.
  - simpl. destruct (chr_eqb x BSL); repeat constructor; intros _ s' [=].
  - change (Re.replace_escaped_quote (x :: y :: s))
      with (if chr_eqb x BSL
            then if chr_eqb y QUOTE
                 then QUOTE :: Re.replace_escaped_quote s
                 else x :: Re.replace_escaped_quote (y :: s)
            else x :: Re.replace_escaped_quote (y :: s)).
    destruct (chr_eqb x BSL) eqn:Ex.
    + apply chr_eqb_eq in Ex; subst x.
      destruct (chr_eqb y QUOTE) eqn:Ey.
      * apply chr_eqb_eq in Ey; subst y. now constructor.
      * constructor; auto. intros _ s' [= -> _].
        apply chr_eqb_neq in Ey. now apply Ey.
    + constructor; auto. intros ->. discriminate Ex.
Qed.

(** An escaped quote between two parts becomes a quote between the
    parts. *)
Lemma quote_between a b :
  Re.replace_escaped_quote (a ++ BSL :: QUOTE :: b)
  = Re.replace_escaped_quote a ++ QUOTE :: Re.replace_escaped_quote b.
Proof.
  induction a as [| x | x y a IH1 IH2] using list_ind2.
  - reflexivity.
  - change (Re.replace_escaped_quote ([x] ++ BSL :: QUOTE :: b))
      with (if chr_eqb x BSL
            then x :: QUOTE :: Re.replace_escaped_quote b
            else x :: QUOTE :: Re.replace_escaped_quote b).
    simpl. destruct (chr_eqb x BSL); reflexivity.
  - change (Re.replace_escaped_quote ((x :: y :: a) ++ BSL :: QUOTE :: b))
      with (if chr_eqb x BSL
            then if chr_eqb y QUOTE
                 then QUOTE :: Re.replace_escaped_quote (a ++ BSL :: QUOTE :: b)
                 else x :: Re.replace_escaped_quote
                             ((y :: a) ++ BSL :: QUOTE :: b)
            else x :: Re.replace_escaped_quote ((y :: a) ++ BSL :: QUOTE :: b)).
    change (Re.replace_escaped_quote (x :: y :: a))
      with (if chr_eqb x BSL
            then if chr_eqb y QUOTE
                 then QUOTE :: Re.replace_escaped_quote a
                 else x :: Re.replace_escaped_quote (y :: a)
            else x :: Re.replace_escaped_quote (y :: a)).
    rewrite IH1, IH2.
    destruct (chr_eqb x BSL); [destruct (chr_eqb y QUOTE)|]; reflexivity.
Qed.

Lemma nl_aux_quote_between b :
  forall a f,
    Re.nl_escape_sub_aux f (a ++ BSL :: QUOTE :: b)
    = Re.nl_escape_sub_aux f a ++ BSL :: QUOTE :: Re.nl_escape_sub_aux false b.
Proof.
  assert (H0 : forall f,
    Re.nl_escape_sub_aux f (BSL :: QUOTE :: b)
    = BSL :: QUOTE :: Re.nl_escape_sub_aux false b).
  { intros f. simpl. now rewrite andb_false_r. }
  induction a as [| x | x y a IH1 IH2] using list_ind2; intros f.
  - apply H0.
  - simpl app. simpl Re.nl_escape_sub_aux at 2.
    change (Re.nl_escape_sub_aux f (x :: BSL :: QUOTE :: b))
      with (if f && is_space x
            then Re.nl_escape_sub_aux true (BSL :: QUOTE :: b)
            else if chr_eqb x BSL
                 then x :: Re.nl_escape_sub_aux false (BSL :: QUOTE :: b)
                 else x :: Re.nl_escape_sub_aux false (BSL :: QUOTE :: b)).
    rewrite !H0.
    destruct (f && is_space x); [reflexivity|].
    destruct (chr_eqb x BSL); reflexivity.
  - change (Re.nl_escape_sub_aux f ((x :: y :: a) ++ BSL :: QUOTE :: b))
      with (if f && is_space x
            then Re.nl_escape_sub_aux true ((y :: a) ++ BSL :: QUOTE :: b)
            else if chr_eqb x BSL
                 then if chr_eqb y NL
                      then Re.nl_escape_sub_aux true (a ++ BSL :: QUOTE :: b)
                      else x :: Re.nl_escape_sub_aux false
                                  ((y :: a) ++ BSL :: QUOTE :: b)
                 else x :: Re.nl_escape_sub_aux false
                             ((y :: a) ++ BSL :: QUOTE :: b)).
    change (Re.nl_escape_sub_aux f (x :: y :: a))
      with (if f && is_space x
            then Re.nl_escape_sub_aux true (y :: a)
            else if chr_eqb x BSL
                 then if chr_eqb y NL
                      then Re.nl_escape_sub_aux true a
                      else x :: Re.nl_escape_sub_aux false (y :: a)
                 else x :: Re.nl_escape_sub_aux false (y :: a)).
    rewrite !IH1, !IH2.
    destruct (f && is_space x); [reflexivity|].
    destruct (chr_eqb x BSL); [destruct (chr_eqb y NL)|]; reflexivity.
Qed.

(** Unescaping adds no character. *)
Lemma quote_incl s c : In c (Re.replace_escaped_quote s) -> In c s.
Proof.
  revert c. induction s as [| x | x y s IH1 IH2] using list_ind2; intros c.
  - auto.
  - simpl. destruct (chr_eqb x BSL); auto.
  - change (Re.replace_escaped_quote (x :: y :: s))
      with (if chr_eqb x BSL
            then if chr_eqb y QUOTE
                 then QUOTE :: Re.replace_escaped_quote s
                 else x :: Re.replace_escaped_quote (y :: s)
            else x :: Re.replace_escaped_quote (y :: s)).
    destruct (chr_eqb x BSL); [destruct (chr_eqb y QUOTE) eqn:Ey|].
    + apply chr_eqb_eq in Ey; subst y.
      intros [<-|H]; [right; now left | right; right; auto].
    + intros [<-|H]; [now left | right; auto].
    + intros [<-|H]; [now left | right; auto].
Qed.

(** *** Module names *)

Lemma rfind_aux_absent c s :
  ~ In c s -> forall i found, rfind_aux c i s found = found.
Proof.
  induction s as [|x s IH]; intros Hn i found; simpl; [reflexivity|].
  rewrite IH by (intros H; apply Hn; now right).
  destruct (chr_eqb x c) eqn:E; [|reflexivity].
  apply chr_eqb_eq in E; subst x. exfalso; apply Hn; now left.
Qed.

Lemma rfind_aux_last c a b :
  ~ In c b ->
  forall i found, rfind_aux c i (a ++ c :: b) found = Some (i + length a).
Proof.
  intros Hb. induction a as [|x a IH]; intros i found; simpl.
  - rewrite rfind_aux_absent by assumption.
    rewrite (proj2 (chr_eqb_eq c c) eq_refl). f_equal; lia.
  - rewrite IH. f_equal; lia.
Qed.

Lemma firstn_length_app {A} (a b : list A) : firstn (length a) (a ++ b) = a.
Proof. induction a; simpl; congruence. Qed.

Lemma skipn_length_app {A} (a b : list A) : skipn (length a) (a ++ b) = b.
Proof. induction a; simpl; congruence. Qed.

(** A name with a stem that is not made of dots only and an extension
    without a dot splits at the last dot. *)
Lemma splitext_stem stem ext :
  ~ In "/"%char stem -> ~ In "/"%char ext -> ~ In "."%char ext ->
  forallb (fun c => chr_eqb c "."%char) stem = false ->
  splitext (stem ++ "."%char :: ext) = (stem, "."%char :: ext).
Proof.
  intros Hs He Hd Hdots. unfold splitext, rfind.
  rewrite (rfind_aux_absent "/"%char (stem ++ "."%char :: ext)).
  2:{ intros H. apply in_app_or in H as [H|[H|H]];
      [now apply Hs | discriminate H | now apply He]. }
  rewrite rfind_aux_last by assumption. simpl.
  unfold forallb_range. rewrite Nat.sub_0_r. simpl skipn.
  rewrite firstn_length_app, skipn_length_app, Hdots. reflexivity.
Qed.

Lemma basename_aux_no_slash s :
  ~ In "/"%char s -> forall cur, basename_aux cur s = rev cur ++ s.
Proof.
  induction s as [|c s IH]; intros Hn cur; simpl.
  - now rewrite app_nil_r.
  - destruct (chr_eqb c "/"%char) eqn:E.
    + apply chr_eqb_eq in E; subst c. exfalso; apply Hn; now left.
    + rewrite IH by (intros H; apply Hn; now right).
      simpl. now rewrite <- app_assoc.
Qed.

Lemma basename_in_dir dir name :
  ~ In "/"%char name -> basename (dir ++ "/"%char :: name) = name.
Proof.
  intros Hn. unfold basename. generalize (@nil ascii) as cur.
  induction dir as [|c dir IH]; intros cur; simpl.
  - now rewrite basename_aux_no_slash.
  - destruct (chr_eqb c "/"%char); apply IH.
Qed.

(** *** The two steps determine the description *)

Lemma span_unique ws rest ws' rest' :
  Forall (fun c => is_space c = true) ws -> no_leading_space rest ->
  Forall (fun c => is_space c = true) ws' -> no_leading_space rest' ->
  ws ++ rest = ws' ++ rest' -> ws = ws' /\ rest = rest'.
Proof.
  intros Hws Hrest; revert ws'.
  induction Hws as [|c ws Hc _ IH]; intros ws' Hws' Hrest' E.
  - destruct Hws' as [|c' ws' Hc' _]; [now split|]. simpl in E.
    rewrite (Hrest c' (ws' ++ rest') E) in Hc'. discriminate.
  - destruct Hws' as [|c' ws' Hc' Hws']; simpl in E.
    + rewrite (Hrest' c (ws ++ rest) (eq_sym E)) in Hc. discriminate.
    + injection E as -> E. destruct (IH ws' Hws' Hrest' E) as [-> ->].
      now split.
Qed.

Lemma joined_functional s o1 :
  joined s o1 -> forall o2, joined s o2 -> o1 = o2.
Proof.
  induction 1 as [| ws rest out Hws Hrest _ IH | c s out Hc _ IH];
    intros o2 H2.
  - now inversion H2.
  - inversion H2 as [| ws' rest' out' Hws' Hrest' Hj E | c' s' out' Hc' Hj];
      subst.
    + destruct (span_unique ws rest ws' rest' Hws Hrest Hws' Hrest' (eq_sym E))
        as [-> ->]. now apply IH.
    + now destruct (Hc' eq_refl (ws ++ rest)).
  - inversion H2 as [| ws' rest' out' Hws' Hrest' Hj E | c' s' out' Hc' Hj];
      subst.
    + now destruct (Hc eq_refl (ws' ++ rest')).
    + f_equal. now apply IH.
Qed.

Lemma unescaped_functional s o1 :
  unescaped s o1 -> forall o2, unescaped s o2 -> o1 = o2.
Proof.
  induction 1 as [| s out _ IH | c s out Hc _ IH]; intros o2 H2.
  - now inversion H2.
  - inversion H2 as [| s' out' Hu | c' s' out' Hc' Hu]; subst.
    + f_equal. now apply IH.
    + now destruct (Hc' eq_refl s).
  - inversion H2 as [| s' out' Hu | c' s' out' Hc' Hu]; subst.
    + now destruct (Hc eq_refl s').
    + f_equal. now apply IH.
Qed.

(** *** Claims on the collector *)

Lemma Forall2_map_graph {A B} (P : A -> B -> Prop) (f : A -> B) l :
  (forall a, P a (f a)) -> Forall2 P l (map f l).
Proof. intros H; induction l; simpl; constructor; auto. Qed.

Lemma Forall_Forall2_map {A B} (P : A -> Prop) (Q : A -> B -> Prop)
      (f : A -> B) l :
  (forall a, P a -> Q a (f a)) -> Forall P l -> Forall2 Q l (map f l).
Proof. intros H; induction 1; simpl; constructor; auto. Qed.

(** [lower] on the spec's terms. *)
Lemma lower_chr_lowercase c : lowercase_chr c (lower_chr c).
Proof.
  unfold lower_chr, is_upper.
  destruct (65 <=? nat_of_ascii c) eqn:A; simpl.
  - destruct (nat_of_ascii c <=? 90) eqn:B.
    + apply lowercase_letter. apply Nat.leb_le in A, B. lia.
    + apply lowercase_other. apply Nat.leb_gt in B. lia.
  - apply lowercase_other. apply Nat.leb_gt in A. lia.
Qed.

Lemma lower_lowercased s : lowercased s (lower s).
Proof.
  induction s as [|c s IH]; simpl; constructor;
    [apply lower_chr_lowercase | exact IH].
Qed.

Lemma lowercase_chr_functional c d d' :
  lowercase_chr c d -> lowercase_chr c d' -> d = d'.
Proof. intros H H'; destruct H; inversion H'; subst; tauto. Qed.

Lemma lowercased_functional s : forall t t',
  lowercased s t -> lowercased s t' -> t = t'.
Proof.
  induction s as [|c s IH]; intros t t' H H'; inversion H; inversion H'; subst;
    [reflexivity|].
  f_equal; [eapply lowercase_chr_functional; eassumption | now apply IH].
Qed.

Lemma level_keywords_lower lv :
  In lv [ #"Forbid"; #"Deny"; #"Warn"; #"Allow" ] ->
  In (lv, lower lv) level_keywords.
Proof.
  intros [<-|[<-|[<-|[<-|[]]]]]; unfold level_keywords;
    [left | right; left | do 2 right; left | do 3 right; left]; reflexivity.
Qed.



(** The same declaration through the pattern, and the scenario of an
    escaped quote. *)
Example collect_continued :
  collect_code [] #"src/misc.rs" continued_code
  = [ mk_lint #"misc" #"long" #"warn" #"one two" ].
Proof. reflexivity. Qed.

Example collect_escaped_quote :
  collect_code [] #"x.rs"
    (decl #"FOO_BAR" #"Warn" (#"does a thing\" ++ [QUOTE] ++ #"s"))
  = [ mk_lint #"x" #"foo_bar" #"warn" (#"does a thing" ++ [QUOTE] ++ #"s") ].
Proof. reflexivity. Qed.

(** ** Claims on [main] *)

(** C3 fails on the code.  On [two_line_world] the first run in write mode
    rewrites both files; the second run leaves the world as it is, byte
    for byte, and yet its flag [changed] is true, because the row of the
    table is one element of the new line list with a newline inside it
    while the file has it on two lines.  Check mode right after the update
    exits with status 1. *)
Theorem second_run_reports_change :
  let w1 := snd (main false false two_line_world) in
  fst (main false false two_line_world) = Return None
  /\ write_run w1 = (Return true, w1)
  /\ fst (main false true w1) = Return (Some 1%Z).
Proof. vm_compute. repeat split. Qed.

(** With an empty line inside the description the second run even changes
    the README again: the table region now ends at that empty line, and
    the rest of the old row stays behind the new table. *)
Example second_run_rewrites :
  let w1 := snd (main false false blank_line_world) in
  let w2 := snd (main false false w1) in
  fst (write_run w1) = Return true
  /\ fst (read_file #"README.md" w2) <> fst (read_file #"README.md" w1).
Proof. vm_compute. split; [reflexivity | discriminate]. Qed.

(** On the example checkout, whose descriptions are single lines, the
    second run changes nothing and says so. *)
Example second_run_demo :
  let w1 := snd (main false false demo_world) in
  write_run w1 = (Return false, w1)
  /\ fst (main false true w1) = Return None.
Proof. vm_compute. split; reflexivity. Qed.

(** *** What a run leaves untouched *)

Lemma read_only_keeps_tree {A} (m : M A) : read_only m -> keeps_tree m.
Proof. intros H w. now rewrite H. Qed.

Lemma read_only_bind {A B} (m : M A) (k : A -> M B) :
  read_only m -> (forall a, read_only (k a)) -> read_only (bind m k).
Proof.
  intros Hm Hk w. unfold bind. specialize (Hm w).
  destruct (m w) as [[a|e] w1]; simpl in *; subst; [apply Hk | reflexivity].
Qed.

Lemma keeps_tree_bind {A B} (m : M A) (k : A -> M B) :
  keeps_tree m -> (forall a, keeps_tree (k a)) -> keeps_tree (bind m k).
Proof.
  intros Hm Hk w. unfold bind. specialize (Hm w).
  destruct (m w) as [[a|e] w1]; simpl in *; [|assumption].
  now rewrite Hk.
Qed.

Lemma read_only_ret {A} (a : A) : read_only (ret a).
Proof. intros w; reflexivity. Qed.

Lemma read_only_lift {A} (o : outcome A) : read_only (lift o).
Proof. intros w; reflexivity. Qed.

Lemma read_only_isfile p : read_only (isfile p).
Proof. intros w; reflexivity. Qed.

Lemma read_only_os_walk p : read_only (os_walk p).
Proof. intros w; reflexivity. Qed.

Lemma read_only_read_file p : read_only (read_file p).
Proof.
  intros w. unfold read_file.
  destruct (lookup (split_path p) (cwd w)) as [[c|es]|]; reflexivity.
Qed.

Lemma keeps_tree_write_stdout s : keeps_tree (write_stdout s).
Proof. intros w; reflexivity. Qed.

Lemma keeps_tree_print s : keeps_tree (print s).
Proof. intros w; reflexivity. Qed.

Lemma read_only_for_each {A S} (body : S -> A -> M S) xs :
  (forall s x, read_only (body s x)) -> forall s, read_only (for_each xs body s).
Proof.
  intros Hb; induction xs as [|x xs IH]; intros s; simpl.
  - apply read_only_ret.
  - apply read_only_bind; auto.
Qed.

Lemma read_only_collect lints fn : read_only (collect lints fn).
Proof.
  apply read_only_bind; [apply read_only_read_file|].
  intros code. apply read_only_ret.
Qed.

Lemma read_only_collect_all : read_only collect_all.
Proof.
  apply read_only_bind; [apply read_only_os_walk|]. intros dirs.
  apply read_only_for_each. intros s [[root ds] files].
  apply read_only_for_each. intros s' fn.
  destruct (endswith fn #".rs");
    [apply read_only_collect | apply read_only_ret].
Qed.

Lemma read_only_replace_region rs re cb rstart fn :
  read_only (replace_region rs re cb rstart fn false).
Proof. intros w. apply replace_region_read_only. Qed.

Lemma read_only_update_regions lints : read_only (update_regions lints true).
Proof.
  unfold update_regions. simpl negb.
  repeat (apply read_only_bind; [apply read_only_replace_region|]; intros ?).
  apply read_only_ret.
Qed.

Lemma keeps_tree_main_check print_only : keeps_tree (main print_only true).
Proof.
  unfold main.
  apply keeps_tree_bind; [apply read_only_keeps_tree, read_only_isfile|].
  intros marker. destruct (negb marker).
  - apply keeps_tree_bind; [apply keeps_tree_print|].
    intros _. apply read_only_keeps_tree, read_only_ret.
  - apply keeps_tree_bind; [apply read_only_keeps_tree, read_only_collect_all|].
    intros lints. destruct print_only.
    + apply keeps_tree_bind; [apply read_only_keeps_tree, read_only_lift|].
      intros ls. apply keeps_tree_bind; [apply keeps_tree_write_stdout|].
      intros _. apply read_only_keeps_tree, read_only_ret.
    + apply keeps_tree_bind;
        [apply read_only_keeps_tree, read_only_update_regions|].
      intros changed. destruct (true && changed).
      * apply keeps_tree_bind; [apply keeps_tree_print|].
        intros _. apply read_only_keeps_tree, read_only_ret.
      * apply read_only_keeps_tree, read_only_ret.
Qed.

(** A call without [write_back] on a readable file whose scan completes
    returns the comparison of the two line lists and nothing else. *)
Lemma replace_region_check rs re cb rstart fn w text st :
  read_file fn w = (Return text, w) ->
  scan_lines rs re cb rstart (readlines text) scan_init = Return st ->
  replace_region rs re cb rstart fn false w
  = (Return (negb (lines_eqb (readlines text) (new_lines st))), w).
Proof.
  intros Hr Hs.
  destruct (replace_region_run rs re cb rstart fn false w text st Hr Hs)
    as (w' & Hrun & _ & Hw).
  simpl in Hw. now subst w'.
Qed.

(** C4 fails on the code, by the defect behind C3.  What holds: in check
    mode no file is written, a run of [main] leaves the directory tree as
    it was, whatever its outcome, and [replace_region] without
    [write_back] leaves the whole world as it was.  What fails: [main]
    returns 1 also when no file would be changed.  In the world the first
    write run leaves of [two_line_world], a run in write mode returns
    [None] and leaves every file and the output as they are, byte for
    byte, and yet the run in check mode prints the reminder and returns 1,
    exit status 1. *)
Theorem check_mode_writes_nothing :
  (forall print_only w, cwd (snd (main print_only true w)) = cwd w)
  /\ (forall rs re cb rstart fn w,
        snd (replace_region rs re cb rstart fn false w) = w)
  /\ (let w1 := snd (main false false two_line_world) in
      main false false w1 = (Return None, w1)
      /\ main false true w1
         = (Return (Some 1%Z),
            mk_world (cwd w1)
              (stdout w1
               ++ #"Please run util/update_lints.py to regenerate lints lists."
               ++ [NL]))
      /\ exit_status (fst (main false true w1)) = 1%Z).
Proof.
  split; [intros; apply keeps_tree_main_check|].
  split; [intros; apply replace_region_read_only|].
  vm_compute. repeat split.
Qed.

(** C8.  When [src/lib.rs] is not a file of the current directory, [main]
    prints its error message and returns [None], so the exit status is 0;
    nothing else happens.  Every run of [main] ends in one of three ways:
    it returns [None], it returns 1, or it raises; the exit status is 1 in
    the last two. *)
Theorem main_without_marker :
  (forall print_only check w,
      (forall c, lookup (split_path #"src/lib.rs") (cwd w) <> Some (File c)) ->
      main print_only check w
      = (Return None,
         mk_world (cwd w)
           (stdout w
            ++ #"Error: call this script from clippy checkout directory!"
            ++ [NL]))
      /\ exit_status (fst (main print_only check w)) = 0%Z)
  /\ (forall print_only check w,
        fst (main print_only check w) = Return None
        \/ fst (main print_only check w) = Return (Some 1%Z)
        \/ exists e, fst (main print_only check w) = Raise e)
  /\ exit_status (Return (Some 1%Z)) = 1%Z
  /\ (forall e, exit_status (Raise e) = 1%Z).
Proof.
  split; [|split; [|split; [reflexivity | reflexivity]]].
  - intros print_only check w Hno.
    assert (Hm : isfile #"src/lib.rs" w = (Return false, w)).
    { unfold isfile.
      destruct (lookup (split_path #"src/lib.rs") (cwd w)) as [[c|es]|] eqn:E;
        [now destruct (Hno c) | reflexivity | reflexivity]. }
    assert (Hmain : main print_only check w
                    = (Return None,
                       mk_world (cwd w)
                         (stdout w
                          ++ #"Error: call this script from clippy checkout directory!"
                          ++ [NL]))).
    { unfold main, bind. rewrite Hm. reflexivity. }
    split; [exact Hmain | now rewrite Hmain].
  - intros print_only check w. unfold main, bind.
    assert (R : forall A (e : exn) (w : world) (P Q : Prop),
               P \/ Q \/ exists e', fst (@Raise A e, w) = Raise e')
      by (intros; right; right; eexists; reflexivity).
    destruct (isfile #"src/lib.rs" w) as [[marker|e] w1]; [|apply R].
    destruct (negb marker); [left; reflexivity|].
    destruct (collect_all w1) as [[lints|e] w2]; [|apply R].
    destruct print_only.
    + unfold lift. destruct (gen_table lints) as [ls|e];
        [left; reflexivity | apply R].
    + destruct (update_regions lints check w2) as [[changed|e] w3]; [|apply R].
      destruct (check && changed); [right; left; reflexivity | left; reflexivity].
Qed.

Lemma main_without_marker_witness :
  main false false empty_world
  = (Return None,
     mk_world (Dir [])
       (#"Error: call this script from clippy checkout directory!" ++ [NL]))
  /\ exit_status (fst (main false false empty_world)) = 0%Z.
Proof.
  refine (proj1 main_without_marker false false empty_world _).
  intros c H. discriminate H.
Defined.

(** * Further properties *)

(** ** Reading and writing lines *)

Lemma readlines_aux_concat s :
  forall cur, concat (readlines_aux cur s) = rev cur ++ s.
Proof.
  induction s as [|c s IH]; intros cur; simpl.
  - destruct cur as [|x cur]; simpl; now rewrite ?app_nil_r.
  - destruct (chr_eqb c NL); simpl.
    + rewrite IH. simpl. now rewrite <- app_assoc.
    + rewrite IH. simpl. now rewrite <- app_assoc.
Qed.

(** Writing back the lines read gives the text read. *)
Lemma writelines_readlines s : writelines (readlines s) = s.
Proof. apply (readlines_aux_concat s []). Qed.

Lemma readlines_aux_body body rest :
  ~ In NL body ->
  forall cur,
    readlines_aux cur (body ++ NL :: rest)
    = (rev cur ++ body ++ [NL]) :: readlines_aux [] rest.
Proof.
  induction body as [|c body IH]; intros Hn cur; simpl.
  - reflexivity.
  - destruct (chr_eqb c NL) eqn:E.
    + apply chr_eqb_eq in E; subst c. exfalso; apply Hn; now left.
    + rewrite IH by (intros H; apply Hn; now right).
      simpl. now rewrite <- app_assoc.
Qed.

Lemma readlines_aux_tail l :
  ~ In NL l ->
  forall cur,
    readlines_aux cur l
    = match rev cur ++ l with [] => [] | t => [t] end.
Proof.
  induction l as [|c l IH]; intros Hn cur; simpl.
  - rewrite app_nil_r. destruct cur as [|x cur]; [reflexivity|].
    simpl. destruct (rev cur ++ [x]) eqn:E; [|reflexivity].
    now apply app_eq_nil in E as [_ [=]].
  - destruct (chr_eqb c NL) eqn:E.
    + apply chr_eqb_eq in E; subst c. exfalso; apply Hn; now left.
    + rewrite IH by (intros H; apply Hn; now right).
      simpl. now rewrite <- app_assoc.
Qed.

(** Reading back lines that were written gives the lines written, when
    they are the lines of a file. *)
Lemma readlines_writelines ls : file_lines ls -> readlines (writelines ls) = ls.
Proof.
  unfold readlines, writelines.
  induction 1 as [| l Hne Hn | l ls (body & -> & Hn) _ IH]; simpl.
  - reflexivity.
  - rewrite app_nil_r, readlines_aux_tail by assumption. simpl.
    destruct l; [congruence | reflexivity].
  - rewrite <- app_assoc. simpl.
    rewrite readlines_aux_body by assumption. simpl. now rewrite IH.
Qed.

Lemma readlines_aux_file_lines s :
  forall cur, ~ In NL cur -> file_lines (readlines_aux cur s).
Proof.
  induction s as [|c s IH]; intros cur Hn; simpl.
  - destruct cur as [|x cur]; [constructor|].
    apply file_lines_last.
    + simpl. intros E. now apply app_eq_nil in E as [_ [=]].
    + intros H. apply Hn. now apply in_rev.
  - destruct (chr_eqb c NL) eqn:E.
    + apply chr_eqb_eq in E; subst c. apply file_lines_cons.
      * exists (rev cur). simpl. split; [reflexivity|].
        intros H. apply Hn. now apply in_rev.
      * apply IH. auto.
    + apply IH. intros [->|H]; [|auto].
      apply chr_eqb_neq in E. now apply E.
Qed.

Lemma readlines_file_lines s : file_lines (readlines s).
Proof. apply readlines_aux_file_lines. auto. Qed.

(** ** Replacing a region twice *)

Lemma split_first {A} (p : A -> bool) l :
  Forall (fun x => p x = false) l
  \/ exists pre x post,
       l = pre ++ x :: post /\ Forall (fun x => p x = false) pre /\ p x = true.
Proof.
  induction l as [|y l [IH|(pre & x & post & -> & Hpre & Hx)]].
  - left; constructor.
  - destruct (p y) eqn:E.
    + right. exists [], y, l. repeat split; auto.
    + left. now constructor.
  - destruct (p y) eqn:E.
    + right. exists [], y, (pre ++ x :: post). repeat split; auto.
    + right. exists (y :: pre), x, post. repeat split; auto.
Qed.

Section ScanTwice.
Variables (region_start region_end : str -> bool).
Variable g : list str.
Variable replace_start : bool.

Let scan_g := scan_lines region_start region_end (fun _ => Return g) replace_start.

(** With a callback that always yields [g] the scan completes. *)
Lemma scan_const_total lines : forall st, exists st', scan_g lines st = Return st'.
Proof.
  induction lines as [|l lines IH]; intros st; simpl.
  - eauto.
  - unfold scan_line. destruct (in_old_region st).
    + destruct (region_end l); apply IH.
    + destruct (region_start l); apply IH.
Qed.

Lemma scan_const_resume lines acc k :
  scan_g lines (mk_scan acc false k) = resume acc k (scan_g lines scan_init).
Proof.
  unfold scan_g.
  rewrite (scan_resume region_start region_end replace_start
             (fun _ => Return g) lines acc k).
  reflexivity.
Qed.

Hypothesis g_inside :
  Forall (fun l => region_end l = false) (if replace_start then tl g else g).
Hypothesis g_opens :
  replace_start = true -> exists h t, g = h :: t /\ region_start h = true.

(** The output of a closed region, scanned again: the region is found
    again and replaced by the same lines. *)
Lemma scan_region_again pre s e post :
  Forall (fun l => region_start l = false) pre ->
  region_start s = true ->
  region_end e = true ->
  scan_g ((pre ++ (if replace_start then [] else [s]) ++ g ++ [e]) ++ post)
    scan_init
  = scan_g post
      (mk_scan (pre ++ (if replace_start then [] else [s]) ++ g ++ [e]) false 1).
Proof.
  intros Hpre Hs He. unfold scan_g. destruct replace_start eqn:R.
  - destruct (g_opens eq_refl) as (h & t & Eg & Hh). rewrite Eg in *.
    simpl in g_inside.
    replace ((pre ++ [] ++ (h :: t) ++ [e]) ++ post)
      with (pre ++ h :: t ++ e :: post)
      by (repeat (rewrite <- app_assoc || simpl); reflexivity).
    rewrite (scan_region region_start region_end true (fun _ => Return (h :: t))
               pre h t e post (h :: t) Hpre Hh g_inside He eq_refl).
    reflexivity.
  - replace ((pre ++ [s] ++ g ++ [e]) ++ post)
      with (pre ++ s :: g ++ e :: post)
      by (repeat (rewrite <- app_assoc || simpl); reflexivity).
    rewrite (scan_region region_start region_end false (fun _ => Return g)
               pre s g e post g Hpre Hs g_inside He eq_refl).
    reflexivity.
Qed.

Lemma scan_twice_bounded n :
  forall lines st,
    length lines <= n ->
    scan_g lines scan_init = Return st ->
    exists st',
      scan_g (new_lines st) scan_init = Return st'
      /\ new_lines st' = new_lines st.
Proof.
  induction n as [|n IH]; intros lines st Hn Hst.
  - destruct lines; [|simpl in Hn; lia]. simpl in Hst.
    injection Hst as <-. exists scan_init. split; reflexivity.
  - destruct (split_first region_start lines)
      as [Hnone | (pre & s & rest & -> & Hpre & Hs)].
    + assert (E : scan_g lines scan_init = Return (mk_scan lines false 0)).
      { unfold scan_g, scan_init.
        rewrite <- (app_nil_r lines) at 1.
        now rewrite (scan_copy region_start region_end replace_start). }
      rewrite E in Hst. injection Hst as <-. simpl. eauto.
    + destruct (split_first region_end rest)
        as [Hopen | (mid & e & post & -> & Hmid & He)].
      * unfold scan_g in Hst.
        rewrite (scan_open region_start region_end replace_start
                   (fun _ => Return g) pre s rest Hpre Hs Hopen) in Hst.
        injection Hst as <-. simpl. destruct replace_start.
        -- rewrite app_nil_r. exists (mk_scan pre false 0). split; [|reflexivity].
           unfold scan_g, scan_init. rewrite <- (app_nil_r pre) at 1.
           now rewrite (scan_copy region_start region_end true).
        -- exists (mk_scan (pre ++ [s]) true 0). split; [|reflexivity].
           unfold scan_g.
           now rewrite (scan_open region_start region_end false
                          (fun _ => Return g) pre s [] Hpre Hs (Forall_nil _)).
      * destruct (scan_const_total post scan_init) as [stp Hp].
        destruct (IH post stp) as (stp' & Hp' & Ep); [|exact Hp|].
        { rewrite !length_app in Hn. simpl in Hn.
          rewrite length_app in Hn. simpl in Hn. lia. }
        assert (E : scan_g (pre ++ s :: mid ++ e :: post) scan_init
                    = scan_g post
                        (mk_scan
                           (pre ++ (if replace_start then [] else [s]) ++ g ++ [e])
                           false 1)).
        { unfold scan_g.
          now rewrite (scan_region region_start region_end replace_start
                         (fun _ => Return g) pre s mid e post g
                         Hpre Hs Hmid He eq_refl). }
        rewrite E, scan_const_resume, Hp in Hst. simpl in Hst.
        injection Hst as <-. simpl.
        rewrite (scan_region_again pre s e (new_lines stp) Hpre Hs He).
        rewrite scan_const_resume, Hp'. simpl.
        eexists; split; [reflexivity|]. simpl. now rewrite Ep.
Qed.
End ScanTwice.

(** ** Writing a file back *)

Lemma set_assoc_same k n es : assoc k es = Some n -> set_assoc k n es = es.
Proof.
  induction es as [|[k' n'] es IH]; simpl; [discriminate|].
  destruct (str_eqb k k') eqn:E.
  - intros [= ->]. apply str_eqb_eq in E. now subst.
  - intros H. now rewrite IH.
Qed.

(** Storing in a file the content it has leaves the tree as it is. *)
Lemma store_same comps c n :
  lookup comps n = Some (File c) -> store comps c n = Some n.
Proof.
  revert n; induction comps as [|k cs IH]; intros n; simpl.
  - now intros [= ->].
  - destruct n as [|es]; [discriminate|].
    destruct (assoc k es) as [sub|] eqn:E; [|discriminate].
    intros H. rewrite (IH _ H). now rewrite set_assoc_same.
Qed.

Lemma write_lines_same fn w ls :
  read_file fn w = (Return (writelines ls), w) ->
  write_lines fn ls w = (Return tt, w).
Proof.
  intros H. apply read_file_inv in H as [_ H].
  unfold write_lines. rewrite (store_same _ _ _ H). now destruct w.
Qed.

(** ** The lines of the output *)

Lemma file_lines_app acc ls :
  Forall complete_line acc -> file_lines ls -> file_lines (acc ++ ls).
Proof.
  induction 1; simpl; auto. intros. now apply file_lines_cons; auto.
Qed.

Lemma complete_file_lines ls : Forall complete_line ls -> file_lines ls.
Proof.
  intros H. rewrite <- (app_nil_r ls). apply file_lines_app; [exact H|constructor].
Qed.

Section ScanOutput.
Variables (region_start region_end : str -> bool).
Variable g : list str.
Variable replace_start : bool.
Hypothesis g_complete : Forall complete_line g.

Let scan_g := scan_lines region_start region_end (fun _ => Return g) replace_start.

(** One step of the scan appends nothing, the line, or [g] and the
    line. *)
Lemma scan_line_appends st l :
  exists st',
    scan_line region_start region_end (fun _ => Return g) replace_start st l
    = Return st'
    /\ (new_lines st' = new_lines st
        \/ new_lines st' = new_lines st ++ [l]
        \/ new_lines st' = (new_lines st ++ g) ++ [l]).
Proof.
  unfold scan_line. destruct (in_old_region st).
  - destruct (region_end l); eexists; split; try reflexivity; simpl; auto.
  - destruct (region_start l); [destruct replace_start|];
      eexists; split; try reflexivity; simpl; auto.
Qed.

(** The output of the scan on the lines of a file, with complete lines
    from the callback, is again the lines of a file. *)
Lemma scan_file_lines lines :
  file_lines lines ->
  forall st st',
    Forall complete_line (new_lines st) ->
    scan_g lines st = Return st' ->
    file_lines (new_lines st').
Proof.
  induction 1 as [| l Hne Hn | l ls Hl _ IH]; intros st st' Hacc; simpl.
  - intros [= <-]. now apply complete_file_lines.
  - destruct (scan_line_appends st l) as (st1 & -> & [E|[E|E]]);
      intros [= <-]; rewrite E.
    + now apply complete_file_lines.
    + apply file_lines_app; [exact Hacc | now apply file_lines_last].
    + apply file_lines_app; [|now apply file_lines_last].
      apply Forall_app; now split.
  - destruct (scan_line_appends st l) as (st1 & -> & E).
    apply IH. destruct E as [E|[E|E]]; rewrite E; auto.
    + apply Forall_app; split; auto.
    + apply Forall_app; split; auto. apply Forall_app; now split.
Qed.
End ScanOutput.

Lemma not_in_check (x : ascii) s :
  forallb (fun c => negb (chr_eqb c x)) s = true -> ~ In x s.
Proof.
  intros H Hin. rewrite forallb_forall in H. specialize (H x Hin).
  now rewrite (proj2 (chr_eqb_eq x x) eq_refl) in H.
Qed.

Lemma no_newline_check s :
  forallb (fun c => negb (chr_eqb c NL)) s = true -> ~ In NL s.
Proof.
  intros H Hin. rewrite forallb_forall in H. specialize (H NL Hin).
  now rewrite (proj2 (chr_eqb_eq NL NL) eq_refl) in H.
Qed.

Lemma complete_line_check body :
  forallb (fun c => negb (chr_eqb c NL)) body = true ->
  complete_line (body ++ [NL]).
Proof. intros H. exists body. split; [reflexivity | now apply no_newline_check]. Qed.

(** A file with no line matching the start pattern is left as it is, with
    or without [write_back]; the call returns false and the callback is
    not called, whatever it would do.  The file is taken to hold no
    carriage return, so that its lines are read and written byte for byte
    whether the interpreter opens it as bytes or as text. *)
Theorem replace_region_no_start
    (region_start region_end : str -> bool)
    (callback : nat -> outcome (list str)) (replace_start write_back : bool)
    (fn : str) (w : world) (text : str) :
  read_file fn w = (Return text, w) ->
  ~ In CR text ->
  Forall (fun l => region_start l = false) (readlines text) ->
  scan_lines region_start region_end callback replace_start
    (readlines text) scan_init
  = Return (mk_scan (readlines text) false 0)
  /\ replace_region region_start region_end callback replace_start
       fn write_back w
     = (Return false, w).
Proof.
  intros Hr _ Hnone.
  assert (Hs : scan_lines region_start region_end callback replace_start
                 (readlines text) scan_init
               = Return (mk_scan (readlines text) false 0)).
  { unfold scan_init. rewrite <- (app_nil_r (readlines text)) at 1.
    now rewrite (scan_copy region_start region_end replace_start). }
  split; [exact Hs|].
  unfold replace_region, bind, lift. rewrite Hr. cbv beta iota.
  rewrite Hs. cbv beta iota. simpl new_lines.
  rewrite (proj2 (lines_eqb_eq _ _) eq_refl). destruct write_back.
  - cbn [new_lines]. rewrite (write_lines_same fn w (readlines text));
      [reflexivity | now rewrite writelines_readlines].
  - reflexivity.
Qed.

Lemma replace_region_no_start_witness :
  replace_region Re.group_start Re.group_end (fun _ => Raise ValueError) false
    #"README.md" true demo_world
  = (Return false, demo_world).
Proof.
  refine (proj2 (replace_region_no_start
            Re.group_start Re.group_end (fun _ => Raise ValueError) false true
            #"README.md" demo_world demo_readme _ _ _)).
  - reflexivity.
  - apply not_in_check. reflexivity.
  - vm_compute. repeat constructor.
Defined.

(** A second call of [replace_region] with [write_back] changes nothing
    and returns false, when the callback always yields the same complete
    lines, none of them (but the first, when the start line is replaced)
    matching the end pattern, and the first of them matching the start
    pattern when the start line is replaced. *)
Lemma replace_region_rerun
    (region_start region_end : str -> bool) (g : list str)
    (replace_start : bool) (fn : str) (w : world) (text : str) :
  Forall (fun l => region_end l = false) (if replace_start then tl g else g) ->
  (replace_start = true -> exists h t, g = h :: t /\ region_start h = true) ->
  Forall complete_line g ->
  read_file fn w = (Return text, w) ->
  exists changed w1,
    replace_region region_start region_end (fun _ => Return g) replace_start
      fn true w = (Return changed, w1)
    /\ replace_region region_start region_end (fun _ => Return g) replace_start
         fn true w1 = (Return false, w1).
Proof.
  intros Hin Hopen Hg Hr.
  destruct (scan_const_total region_start region_end g replace_start
              (readlines text) scan_init) as [st Hst].
  destruct (replace_region_run region_start region_end (fun _ => Return g)
              replace_start fn true w text st Hr Hst) as (w1 & Hrun & _ & Hr1).
  exists (negb (lines_eqb (readlines text) (new_lines st))), w1.
  split; [exact Hrun|].
  assert (Hfl : file_lines (new_lines st)).
  { apply (scan_file_lines region_start region_end g replace_start Hg
             (readlines text) (readlines_file_lines text) scan_init st);
      [constructor | exact Hst]. }
  destruct (scan_twice_bounded region_start region_end g replace_start
              Hin Hopen (length (readlines text)) (readlines text) st
              (le_n _) Hst) as (st' & Hst' & E).
  unfold replace_region, bind, lift. rewrite Hr1. cbv beta iota.
  rewrite (readlines_writelines _ Hfl), Hst'. cbv beta iota. rewrite E.
  rewrite (proj2 (lines_eqb_eq _ _) eq_refl).
  now rewrite (write_lines_same fn w1 (new_lines st) Hr1).
Qed.

(** ** A clean check *)

(** When a call without [write_back] returns false, the same call with
    [write_back] returns false too and leaves the world as it is. *)
Lemma replace_region_clean rs re cb rstart fn w w' :
  replace_region rs re cb rstart fn false w = (Return false, w') ->
  replace_region rs re cb rstart fn true w = (Return false, w).
Proof.
  unfold replace_region, bind, lift.
  destruct (read_file fn w) as [[text|e] w0] eqn:Hr; [|discriminate].
  pose proof (read_only_read_file fn w) as Hw. rewrite Hr in Hw. simpl in Hw.
  subst w0.
  destruct (scan_lines rs re cb rstart (readlines text) scan_init)
    as [st|e]; [|discriminate].
  unfold ret. intros [= Hc _].
  apply negb_false_iff, lines_eqb_eq in Hc.
  rewrite <- Hc, (proj2 (lines_eqb_eq _ _) eq_refl).
  rewrite (write_lines_same fn w (readlines text));
    [reflexivity | now rewrite writelines_readlines].
Qed.

Lemma replace_region_false_world rs re cb rstart fn w o w' :
  replace_region rs re cb rstart fn false w = (o, w') -> w' = w.
Proof.
  intros H. pose proof (replace_region_read_only rs re cb rstart fn w) as E.
  now rewrite H in E.
Qed.

Lemma update_regions_clean lints w w' :
  update_regions lints true w = (Return false, w') ->
  update_regions lints false w = (Return false, w) /\ w' = w.
Proof.
  unfold update_regions, bind. simpl negb.
  destruct (replace_region Re.table_start Re.blank (fun _ => gen_table lints)
              true #"README.md" false w) as [[c1|e] w1] eqn:H1; [|discriminate].
  pose proof (replace_region_false_world _ _ _ _ _ _ _ _ H1); subst w1.
  destruct (replace_region Re.count_start Re.empty
              (fun _ => Return [count_line lints]) true #"README.md" false w)
    as [[c2|e] w2] eqn:H2; [|discriminate].
  pose proof (replace_region_false_world _ _ _ _ _ _ _ _ H2); subst w2.
  destruct (replace_region Re.group_start Re.group_end
              (fun _ => Return (gen_group lints)) false #"src/lib.rs" false w)
    as [[c3|e] w3] eqn:H3; [|discriminate].
  pose proof (replace_region_false_world _ _ _ _ _ _ _ _ H3); subst w3.
  unfold ret. intros [= Hc <-].
  apply orb_false_iff in Hc as [Hc ->]. apply orb_false_iff in Hc as [-> ->].
  rewrite (replace_region_clean _ _ _ _ _ _ _ H1).
  rewrite (replace_region_clean _ _ _ _ _ _ _ H2).
  rewrite (replace_region_clean _ _ _ _ _ _ _ H3).
  split; reflexivity.
Qed.

(** When check mode finds nothing to report, a run in write mode finds
    nothing to do: in a checkout, with the marker file [src/lib.rs] and
    [README.md] readable, if the run in check mode returns [None] then it
    has printed nothing, and the run in write mode from the same world
    returns [None] too and leaves every file and the output as they were.
    The two files are taken to hold no carriage return, so that they are
    read and written byte for byte whether the interpreter opens them as
    bytes or as text. *)
Theorem clean_check_means_no_op (w : world) (readme lib : str) :
  read_file #"README.md" w = (Return readme, w) ->
  read_file #"src/lib.rs" w = (Return lib, w) ->
  ~ In CR readme -> ~ In CR lib ->
  fst (main false true w) = Return None ->
  main false true w = (Return None, w)
  /\ main false false w = (Return None, w).
Proof.
  intros _ Hlib _ _.
  assert (Hmarker : isfile #"src/lib.rs" w = (Return true, w)).
  { apply read_file_inv in Hlib as [_ Hlib]. unfold isfile. now rewrite Hlib. }
  unfold main, bind. rewrite Hmarker. change (negb true) with false.
  cbv beta iota.
  pose proof (read_only_collect_all w) as Rc.
  destruct (collect_all w) as [[lints|e] w0]; simpl in Rc; subst w0;
    [|discriminate].
  pose proof (read_only_update_regions lints w) as Ru.
  destruct (update_regions lints true w) as [[changed|e] w0] eqn:Hu;
    simpl in Ru; subst w0; [|discriminate].
  destruct changed; [discriminate|]. intros _.
  destruct (update_regions_clean lints w w Hu) as [-> _].
  split; reflexivity.
Qed.

Lemma clean_check_means_no_op_witness :
  main false true (snd (main false false demo_world))
  = (Return None, snd (main false false demo_world))
  /\ main false false (snd (main false false demo_world))
     = (Return None, snd (main false false demo_world)).
Proof.
  eapply clean_check_means_no_op.
  - vm_compute. reflexivity.
  - vm_compute. reflexivity.
  - apply not_in_check. vm_compute. reflexivity.
  - apply not_in_check. vm_compute. reflexivity.
  - vm_compute. reflexivity.
Defined.

(** ** What a run may write *)

Lemma assoc_set_assoc_other k k2 n es :
  str_eqb k2 k = false -> assoc k2 (set_assoc k n es) = assoc k2 es.
Proof.
  intros Hk. induction es as [|[k' n'] es IH]; simpl.
  - now rewrite Hk.
  - destruct (str_eqb k k') eqn:E; simpl.
    + apply str_eqb_eq in E; subst k'. now rewrite Hk.
    + now rewrite IH.
Qed.

(** Rewriting an existing file changes nothing at the paths that do not
    lead to it. *)
Lemma store_elsewhere comps c :
  forall n n' c0 q,
    lookup comps n = Some (File c0) ->
    store comps c n = Some n' ->
    ~ is_prefix q comps ->
    lookup q n' = lookup q n.
Proof.
  induction comps as [|k cs IH]; intros n n' c0 q; simpl.
  - intros [= ->] [= <-] Hq. destruct q as [|k2 q]; [|reflexivity].
    exfalso. apply Hq. now exists [].
  - destruct n as [|es]; [discriminate|].
    destruct (assoc k es) as [sub|] eqn:E; [|discriminate].
    intros Hl. destruct (store cs c sub) as [sub'|] eqn:Es; [|discriminate].
    intros [= <-] Hq. destruct q as [|k2 q].
    + exfalso. apply Hq. now exists (k :: cs).
    + simpl. destruct (str_eqb k2 k) eqn:Ek.
      * apply str_eqb_eq in Ek; subst k2.
        rewrite assoc_set_assoc, E.
        apply (IH sub sub' c0 q Hl Es).
        intros [t Ht]. apply Hq. exists t. simpl. now rewrite Ht.
      * now rewrite assoc_set_assoc_other.
Qed.

Lemma keeps_tree_touches_only ts {A} (m : M A) :
  keeps_tree m -> touches_only ts m.
Proof. intros H w q _. now rewrite H. Qed.

Lemma touches_only_bind ts {A B} (m : M A) (k : A -> M B) :
  touches_only ts m -> (forall a, touches_only ts (k a)) ->
  touches_only ts (bind m k).
Proof.
  intros Hm Hk w q Hq. unfold bind. specialize (Hm w q Hq).
  destruct (m w) as [[a|e] w1]; simpl in *; [|assumption].
  rewrite <- Hm. now apply Hk.
Qed.

Lemma touches_only_write_after_read ts fn ls w text :
  In (split_path fn) ts ->
  read_file fn w = (Return text, w) ->
  forall q,
    (forall p, In p ts -> ~ is_prefix q p) ->
    lookup q (cwd (snd (write_lines fn ls w))) = lookup q (cwd w).
Proof.
  intros Hin Hr q Hq. apply read_file_inv in Hr as [_ Hl].
  unfold write_lines.
  destruct (store (split_path fn) (writelines ls) (cwd w)) as [n'|] eqn:Es;
    [|reflexivity].
  simpl. eapply store_elsewhere; eauto.
Qed.

Lemma touches_only_replace_region ts rs re cb rstart fn write_back :
  In (split_path fn) ts ->
  touches_only ts (replace_region rs re cb rstart fn write_back).
Proof.
  intros Hin w q Hq. unfold replace_region, bind, lift.
  destruct (read_file fn w) as [[text|e] w0] eqn:Hr.
  2:{ pose proof (read_only_read_file fn w) as Hw. rewrite Hr in Hw.
      simpl in *. now subst. }
  pose proof (read_only_read_file fn w) as Hw. rewrite Hr in Hw. simpl in Hw.
  subst w0.
  destruct (scan_lines rs re cb rstart (readlines text) scan_init) as [st|e];
    [|reflexivity].
  destruct write_back; [|reflexivity].
  pose proof (touches_only_write_after_read ts fn (new_lines st) w text
                Hin Hr q Hq) as H.
  destruct (write_lines fn (new_lines st) w) as [[[]|e] w1]; exact H.
Qed.

Lemma touches_only_update_regions lints check :
  touches_only [ [ #"README.md" ]; [ #"src"; #"lib.rs" ] ]
    (update_regions lints check).
Proof.
  unfold update_regions.
  apply touches_only_bind;
    [apply touches_only_replace_region; left; reflexivity|]. intros c1.
  apply touches_only_bind;
    [apply touches_only_replace_region; left; reflexivity|]. intros c2.
  apply touches_only_bind;
    [apply touches_only_replace_region; right; left; reflexivity|]. intros c3.
  apply keeps_tree_touches_only, read_only_keeps_tree, read_only_ret.
Qed.

(** In every mode [main] changes no file but [README.md] and
    [src/lib.rs]: a path that does not lead to one of the two leads, after
    the run, to what it led to before, whatever the outcome. *)
Theorem main_touches_only_targets (print_only check : bool) (w : world)
    (q : list str) :
  ~ is_prefix q [ #"README.md" ] ->
  ~ is_prefix q [ #"src"; #"lib.rs" ] ->
  lookup q (cwd (snd (main print_only check w))) = lookup q (cwd w).
Proof.
  intros H1 H2.
  assert (T : touches_only [ [ #"README.md" ]; [ #"src"; #"lib.rs" ] ]
                (main print_only check)).
  { unfold main.
    apply touches_only_bind;
      [apply keeps_tree_touches_only, read_only_keeps_tree, read_only_isfile|].
    intros marker. destruct (negb marker).
    - apply keeps_tree_touches_only.
      apply keeps_tree_bind; [apply keeps_tree_print|].
      intros _. apply read_only_keeps_tree, read_only_ret.
    - apply touches_only_bind;
        [apply keeps_tree_touches_only, read_only_keeps_tree,
           read_only_collect_all|].
      intros lints. destruct print_only.
      + apply keeps_tree_touches_only.
        apply keeps_tree_bind; [apply read_only_keeps_tree, read_only_lift|].
        intros ls. apply keeps_tree_bind; [apply keeps_tree_write_stdout|].
        intros _. apply read_only_keeps_tree, read_only_ret.
      + apply touches_only_bind; [apply touches_only_update_regions|].
        intros changed. apply keeps_tree_touches_only.
        destruct (check && changed).
        * apply keeps_tree_bind; [apply keeps_tree_print|].
          intros _. apply read_only_keeps_tree, read_only_ret.
        * apply read_only_keeps_tree, read_only_ret. }
  apply T. intros p [<-|[<-|[]]]; assumption.
Qed.

Lemma main_touches_only_targets_witness :
  lookup [ #"src"; #"misc.rs" ] (cwd (snd (main false false demo_world)))
  = lookup [ #"src"; #"misc.rs" ] (cwd demo_world).
Proof.
  apply main_touches_only_targets.
  - intros [c H]. discriminate H.
  - intros [c H]. discriminate H.
Defined.

(** ** Runs without lints, and print-only runs *)

(** A closed region whose callback raises: the scan raises. *)
Lemma scan_region_raise rs re cb rstart pre s mid e post x :
  Forall (fun l => rs l = false) pre ->
  rs s = true ->
  Forall (fun l => re l = false) mid ->
  re e = true ->
  cb 0 = Raise x ->
  scan_lines rs re cb rstart (pre ++ s :: mid ++ e :: post) scan_init = Raise x.
Proof.
  intros Hpre Hs Hmid He Hx. unfold scan_init.
  rewrite (scan_copy rs re rstart) by assumption. simpl.
  unfold scan_line at 1; simpl. rewrite Hs.
  rewrite (scan_drop rs re rstart) by assumption. simpl.
  unfold scan_line at 1; simpl. now rewrite He, Hx.
Qed.

(** Print-only mode, with or without the check flag: no file is written;
    when lints were collected the table is printed and [None] returned,
    and when none was collected [ValueError] is raised and nothing is
    printed. *)
Theorem main_print_only (check : bool) (w : world) (lib : str)
    (lints : list lint) :
  read_file #"src/lib.rs" w = (Return lib, w) ->
  collect_all w = (Return lints, w) ->
  cwd (snd (main true check w)) = cwd w
  /\ (lints = [] -> main true check w = (Raise ValueError, w))
  /\ (lints <> [] ->
      exists ls,
        gen_table lints = Return ls
        /\ length ls = 2 + length lints
        /\ main true check w
           = (Return None, mk_world (cwd w) (stdout w ++ concat ls))).
Proof.
  intros Hl Hc.
  assert (Hm : isfile #"src/lib.rs" w = (Return true, w)).
  { apply read_file_inv in Hl as [_ Hl]. unfold isfile. now rewrite Hl. }
  assert (Hmain : main true check w
                  = match gen_table lints with
                    | Return ls =>
                        (Return None, mk_world (cwd w) (stdout w ++ concat ls))
                    | Raise e => (Raise e, w)
                    end).
  { unfold main, bind. rewrite Hm. cbv beta iota.
    change (negb true) with false. cbv beta iota.
    rewrite Hc. cbv beta iota. unfold lift.
    destruct (gen_table lints); reflexivity. }
  split; [|split].
  - rewrite Hmain. destruct (gen_table lints); reflexivity.
  - intros ->. exact Hmain.
  - intros Hne. destruct (gen_table_some lints Hne) as (wn & wd & _ & _ & Ht).
    rewrite Ht in Hmain. eexists. split; [exact Ht|]. split; [|exact Hmain].
    simpl. rewrite length_map.
    now rewrite (Permutation_length (proj1 (sorted_by_name lints))).
Qed.

Lemma main_print_only_witness :
  main true true no_lints_world = (Raise ValueError, no_lints_world).
Proof.
  refine (proj1 (proj2 (main_print_only true no_lints_world demo_lib []
                          _ _)) eq_refl).
  - reflexivity.
  - reflexivity.
Defined.

(** When no lint is collected and the README holds a table header
    followed later by an empty line, update mode and check mode raise
    [ValueError]; nothing has been written or printed by then. *)
Theorem main_no_lints_raises (check : bool) (w : world) (lib readme : str)
    (pre : list str) (s : str) (mid : list str) (e : str) (post : list str) :
  read_file #"src/lib.rs" w = (Return lib, w) ->
  collect_all w = (Return [], w) ->
  read_file #"README.md" w = (Return readme, w) ->
  readlines readme = pre ++ s :: mid ++ e :: post ->
  Forall (fun l => Re.table_start l = false) pre ->
  Re.table_start s = true ->
  Forall (fun l => Re.blank l = false) mid ->
  Re.blank e = true ->
  main false check w = (Raise ValueError, w)
  /\ exit_status (fst (main false check w)) = 1%Z.
Proof.
  intros Hl Hc Hr Hlines Hpre Hs Hmid He.
  assert (Hm : isfile #"src/lib.rs" w = (Return true, w)).
  { apply read_file_inv in Hl as [_ Hl']. unfold isfile. now rewrite Hl'. }
  assert (Hscan : scan_lines Re.table_start Re.blank (fun _ => gen_table [])
                    true (readlines readme) scan_init = Raise ValueError).
  { rewrite Hlines. now apply scan_region_raise. }
  assert (Hmain : main false check w = (Raise ValueError, w)).
  { unfold main, bind. rewrite Hm. cbv beta iota.
    change (negb true) with false. cbv beta iota.
    rewrite Hc. cbv beta iota. unfold update_regions, bind.
    rewrite (replace_region_raise Re.table_start Re.blank
               (fun _ => gen_table []) true #"README.md" (negb check)
               w readme ValueError Hr Hscan).
    reflexivity. }
  split; [exact Hmain | now rewrite Hmain].
Qed.

Lemma main_no_lints_raises_witness :
  main false false no_lints_world = (Raise ValueError, no_lints_world)
  /\ exit_status (fst (main false false no_lints_world)) = 1%Z.
Proof.
  refine (main_no_lints_raises false no_lints_world demo_lib demo_readme
            [ #"# rust-clippy" ++ [NL];
              #"There are 0 lints included in this crate:" ++ [NL];
              [NL] ]
            (#"name | default | meaning" ++ [NL])
            [ #"-----|---------|--------" ++ [NL];
              #"old  | warn    | gone" ++ [NL] ]
            [NL]
            [ #"License: MPL" ++ [NL] ]
            _ _ _ _ _ _ _ _).
  all: try reflexivity.
  - repeat constructor.
  - repeat constructor.
Defined.

(** ** The rendered text and the order of collection *)

(** Two sorted arrangements of the same elements are equal, when distinct
    elements are never both below each other. *)
Lemma sorted_arrangement_unique {A} (le : A -> A -> Prop) l1 :
  forall l2,
    (forall a b, In a l1 -> In b l1 -> le a b -> le b a -> a = b) ->
    StronglySorted le l1 -> StronglySorted le l2 -> Permutation l1 l2 ->
    l1 = l2.
Proof.
  induction l1 as [|h1 t1 IH]; intros l2 Hanti S1 S2 P.
  - apply Permutation_nil in P. now subst.
  - destruct l2 as [|h2 t2].
    + apply Permutation_sym, Permutation_nil in P. discriminate.
    + apply StronglySorted_inv in S1 as [S1 F1].
      apply StronglySorted_inv in S2 as [S2 F2].
      assert (E : h1 = h2).
      { assert (I2 : In h2 (h1 :: t1))
          by (eapply Permutation_in; [symmetry; exact P | now left]).
        assert (I1 : In h1 (h2 :: t2))
          by (eapply Permutation_in; [exact P | now left]).
        destruct I2 as [->|I2]; [reflexivity|].
        destruct I1 as [<-|I1]; [reflexivity|].
        rewrite Forall_forall in F1, F2.
        apply Hanti; [now left | now right | now apply F1 | now apply F2]. }
      subst h2. f_equal. apply IH; auto.
      * intros a b Ha Hb. apply Hanti; now right.
      * eapply Permutation_cons_inv; exact P.
Qed.

Lemma max_of_permutation l l' : Permutation l l' -> max_of l = max_of l'.
Proof.
  intros P. destruct (max_of l) as [w|] eqn:E; destruct (max_of l') as [w'|] eqn:E'.
  - apply max_of_spec in E as [F I]. apply max_of_spec in E' as [F' I'].
    rewrite Forall_forall in F, F'.
    assert (w <= w') by (apply F'; eapply Permutation_in; eauto).
    assert (w' <= w)
      by (apply F; eapply Permutation_in; [symmetry|]; eauto).
    f_equal; lia.
  - destruct l'; [|discriminate]. apply Permutation_sym, Permutation_nil in P.
    subst. discriminate.
  - destruct l; [|discriminate]. apply Permutation_nil in P.
    subst. discriminate.
  - reflexivity.
Qed.

Lemma NoDup_map_injective {A B} (f : A -> B) l a b :
  NoDup (map f l) -> In a l -> In b l -> f a = f b -> a = b.
Proof.
  induction l as [|x l IH]; simpl; [tauto|].
  intros N. apply NoDup_cons_iff in N as [Nx N].
  intros [->|Ha] [->|Hb] E; auto.
  - exfalso. apply Nx. rewrite E. now apply in_map.
  - exfalso. apply Nx. rewrite <- E. now apply in_map.
Qed.

Lemma sorted_group_permutation l l' :
  Permutation l l' -> sorted lint_ltb l = sorted lint_ltb l'.
Proof.
  intros P. change lint_ltb with (ltb_of lint_compare).
  apply (sorted_arrangement_unique (fun a b => lint_compare b a <> Lt)).
  - intros a b _ _ Hab Hba. apply lint_compare_eq.
    rewrite (cmp_sym (cmp := lint_compare) a b) in Hab.
    destruct (lint_compare a b); simpl in *; congruence.
  - apply (sorted_sorted lint_compare).
  - apply (sorted_sorted lint_compare).
  - rewrite (sorted_perm lint_compare l), (sorted_perm lint_compare l').
    exact P.
Qed.

Lemma sorted_name_permutation l l' :
  Permutation l l' -> NoDup (map lint_name l) ->
  sorted name_ltb l = sorted name_ltb l'.
Proof.
  intros P N.
  pose (cmp := fun a b => str_compare (lint_name a) (lint_name b)).
  assert (O : Ordering cmp) by apply (key_ordering lint_name str_compare).
  change name_ltb with (ltb_of cmp).
  apply (sorted_arrangement_unique (fun a b => cmp b a <> Lt)).
  - intros a b Ha Hb Hab Hba.
    apply (Permutation_in _ (sorted_perm cmp l)) in Ha, Hb.
    apply (NoDup_map_injective lint_name l a b N Ha Hb).
    apply str_compare_eq. unfold cmp in *.
    rewrite (str_compare_sym (lint_name a) (lint_name b)) in Hab.
    destruct (str_compare (lint_name a) (lint_name b)); simpl in *; congruence.
  - apply (sorted_sorted cmp).
  - apply (sorted_sorted cmp).
  - rewrite (sorted_perm cmp l), (sorted_perm cmp l'). exact P.
Qed.

(** The lint group does not depend on the order in which the lints were
    collected; neither does the table, when no two lints have the same
    name. *)
Theorem rendering_ignores_collection_order (lints lints' : list lint) :
  Permutation lints lints' ->
  gen_group lints = gen_group lints'
  /\ (NoDup (map lint_name lints) -> gen_table lints = gen_table lints').
Proof.
  intros P. split.
  - unfold gen_group. now rewrite (sorted_group_permutation lints lints' P).
  - intros N. unfold gen_table.
    rewrite (max_of_permutation _ _
               (Permutation_map (fun l => length (lint_name l)) P)).
    rewrite (max_of_permutation _ _
               (Permutation_map (fun l => length (lint_desc l)) P)).
    now rewrite (sorted_name_permutation lints lints' P N).
Qed.

Lemma rendering_ignores_collection_order_witness :
  gen_group two_lints = gen_group (rev two_lints)
  /\ (NoDup (map lint_name two_lints) ->
      gen_table two_lints = gen_table (rev two_lints)).
Proof.
  apply rendering_ignores_collection_order. apply Permutation_rev.
Defined.

(** ** Lints of the same name *)

Lemma filter_insert {A} (ltb : A -> A -> bool) (p : A -> bool) x l :
  (forall y, p x = true -> ltb y x = true -> p y = false) ->
  filter p (insert ltb x l) = if p x then x :: filter p l else filter p l.
Proof.
  intros H. induction l as [|y l IH]; simpl.
  - reflexivity.
  - destruct (ltb y x) eqn:E; simpl.
    + rewrite IH. destruct (p x) eqn:Px.
      * now rewrite (H y eq_refl E).
      * reflexivity.
    + reflexivity.
Qed.

Lemma str_ltb_neq a b : str_ltb a b = true -> a <> b.
Proof.
  unfold str_ltb. intros H ->.
  now rewrite (proj2 (str_compare_eq b b) eq_refl) in H.
Qed.

(** The sort of the table is stable: the lints of one name stand in the
    table in the order in which they were collected. *)
Theorem table_rows_stable (lints : list lint) (name : str) :
  filter (fun l => str_eqb (lint_name l) name) (sorted name_ltb lints)
  = filter (fun l => str_eqb (lint_name l) name) lints.
Proof.
  induction lints as [|x lints IH]; simpl; [reflexivity|].
  rewrite filter_insert, IH; [reflexivity|].
  intros y Px Hlt. apply str_eqb_eq in Px.
  apply not_true_iff_false. intros Py. apply str_eqb_eq in Py.
  apply (str_ltb_neq _ _ Hlt). congruence.
Qed.

(** On [same_name_lints] the two lints named [foo] keep their order. *)
Example table_rows_stable_example :
  map lint_desc (sorted name_ltb same_name_lints)
  = [ #"x"; #"the first"; #"the second" ].
Proof. reflexivity. Qed.

(** ** What the collector keeps of a declaration *)

Lemma many_spec c s :
  forall m r, Re.many c s = (m, r) ->
              s = m ++ r /\ Forall (fun x => c x = true) m.
Proof.
  induction s as [|x s IH]; intros m r; simpl.
  - intros [= <- <-]. split; [reflexivity | constructor].
  - destruct (c x) eqn:E.
    + destruct (Re.many c s) as [m' r'] eqn:Em. intros [= <- <-].
      destruct (IH m' r' eq_refl) as [-> F]. split; [reflexivity|].
      now constructor.
    + intros [= <- <-]. split; [reflexivity | constructor].
Qed.

Lemma many1_spec c s m r :
  Re.many1 c s = Some (m, r) ->
  s = m ++ r /\ m <> [] /\ Forall (fun x => c x = true) m.
Proof.
  unfold Re.many1. destruct (Re.many c s) as [m' r'] eqn:E.
  destruct m' as [|x m']; [discriminate|]. intros [= <- <-].
  destruct (many_spec c s _ _ E) as [-> F]. repeat split; auto. discriminate.
Qed.

Lemma match_at_name s m r :
  Re.match_at s = Some (m, r) ->
  Re.name_group m <> []
  /\ Forall (fun c => Re.is_name_chr c = true) (Re.name_group m).
Proof.
  unfold Re.match_at. repeat step_match.
  intros [= <- _]. simpl.
  match goal with
  | H : Re.many1 Re.is_name_chr _ = Some _ |- _ =>
      apply many1_spec in H as (_ & Hne & F)
  end.
  now split.
Qed.

(** Lower case and back: an upper-case letter or an underscore comes back
    as it was, and its lower case is a lower-case letter or an
    underscore. *)
Lemma name_chr_round_trip c :
  Re.is_name_chr c = true ->
  upper_chr (lower_chr c) = c
  /\ (is_lower (lower_chr c) = true \/ lower_chr c = "_"%char).
Proof.
  destruct c as [b0 b1 b2 b3 b4 b5 b6 b7].
  destruct b0, b1, b2, b3, b4, b5, b6, b7; vm_compute;
    first [discriminate | intros _; split; [reflexivity | auto]].
Qed.

Lemma name_round_trip n :
  Forall (fun c => Re.is_name_chr c = true) n ->
  upper (lower n) = n
  /\ Forall (fun c => is_lower c = true \/ c = "_"%char) (lower n).
Proof.
  induction 1 as [|c n Hc _ [IH1 IH2]]; simpl; [split; [reflexivity|constructor]|].
  destruct (name_chr_round_trip c Hc) as [E L].
  rewrite E, IH1. split; [reflexivity | now constructor].
Qed.

Lemma lit_startswith p s :
  (exists r, Re.lit p s = Some r) <-> startswith s p = true.
Proof.
  revert s; induction p as [|x p IH]; intros s.
  - destruct s; simpl; (split; [reflexivity | intros _; eexists; reflexivity]).
  - destruct s as [|y s]; cbn [Re.lit startswith].
    + split; [intros [r [=]] | discriminate].
    + destruct (chr_eqb x y); cbn [andb]; [apply IH|].
      split; [intros [r [=]] | discriminate].
Qed.

Lemma match_at_marker s m r :
  Re.match_at s = Some (m, r) -> startswith s #"declare_lint!" = true.
Proof.
  unfold Re.match_at. intros H. apply lit_startswith.
  destruct (Re.lit #"declare_lint!" s); [eauto | discriminate].
Qed.

Lemma finditer_aux_no_marker s :
  Re.search (fun t => startswith t #"declare_lint!") s = false ->
  forall skip, Re.finditer_aux skip s = [].
Proof.
  induction s as [|c s IH]; intros H skip; [reflexivity|].
  cbn [Re.search] in H. apply orb_false_iff in H as [H0 H].
  cbn [Re.finditer_aux]. destruct skip; [|now apply IH].
  destruct (Re.match_at (c :: s)) as [[m r]|] eqn:E; [|now apply IH].
  apply match_at_marker in E. congruence.
Qed.

Lemma lint_of_match_name fn m :
  Re.name_group m <> []
  /\ Forall (fun c => Re.is_name_chr c = true) (Re.name_group m) ->
  lint_name (lint_of_match fn m) <> []
  /\ Forall (fun c => is_lower c = true \/ c = "_"%char)
       (lint_name (lint_of_match fn m))
  /\ upper (lint_name (lint_of_match fn m)) = Re.name_group m.
Proof.
  intros [Hne F]. simpl. destruct (name_round_trip _ F) as [E L].
  repeat split; auto. destruct (Re.name_group m); [congruence | discriminate].
Qed.

Lemma collect_code_names lints fn code :
  Forall (fun l =>
            lint_name l <> []
            /\ Forall (fun c => is_lower c = true \/ c = "_"%char)
                 (lint_name l)) lints ->
  Forall (fun l =>
            lint_name l <> []
            /\ Forall (fun c => is_lower c = true \/ c = "_"%char)
                 (lint_name l)) (collect_code lints fn code).
Proof.
  intros H. rewrite collect_code_app.
  apply Forall_app; split; [exact H|]. apply Forall_map.
  apply (finditer_aux_Forall
           (fun m => lint_name (lint_of_match fn m) <> []
                     /\ Forall (fun c => is_lower c = true \/ c = "_"%char)
                          (lint_name (lint_of_match fn m)))).
  intros s m r E.
  destruct (lint_of_match_name fn m (match_at_name s m r E)) as (A & B & _).
  now split.
Qed.

(** What holds of the lints a text adds holds of every lint after a run
    of the collector. *)
Lemma collect_all_Forall (P : lint -> Prop) :
  (forall lints fn code,
      Forall P lints -> Forall P (collect_code lints fn code)) ->
  forall w lints w', collect_all w = (Return lints, w') -> Forall P lints.
Proof.
  intros Hcode w lints w'. unfold collect_all, bind, os_walk.
  apply (for_each_invariant (Forall P)); [|constructor].
  intros s [[root dirs] files] w1 s' w1' Hs.
  apply (for_each_invariant (Forall P)); [|exact Hs].
  intros s2 fn w2 s2' w2' Hs2.
  destruct (endswith fn #".rs").
  - unfold collect, bind, ret.
    destruct (read_file (path_join root fn) w2) as [[code|e] w3];
      [|intros [=]].
    intros [= <- _]. now apply Hcode.
  - unfold ret. now intros [= <- _].
Qed.

(** Every lint collected has a name that is not empty and made of
    lower-case letters and underscores, and the upper case of that name is
    the identifier as it was declared; this holds after any run of the
    collector.  A text in which [declare_lint!] does not occur adds no
    lint. *)
Theorem collected_names :
  (forall fn code,
      Forall2
        (fun m r =>
           lint_name r <> []
           /\ Forall (fun c => is_lower c = true \/ c = "_"%char) (lint_name r)
           /\ upper (lint_name r) = Re.name_group m)
        (Re.finditer code) (collect_code [] fn code))
  /\ (forall w lints w',
        collect_all w = (Return lints, w') ->
        Forall (fun l =>
                  lint_name l <> []
                  /\ Forall (fun c => is_lower c = true \/ c = "_"%char)
                       (lint_name l))
          lints)
  /\ (forall lints fn code,
        Re.search (fun t => startswith t #"declare_lint!") code = false ->
        collect_code lints fn code = lints).
Proof.
  split; [|split].
  - intros fn code. rewrite collect_code_app. simpl.
    apply (Forall_Forall2_map
             (fun m => Re.name_group m <> []
                       /\ Forall (fun c => Re.is_name_chr c = true)
                            (Re.name_group m))).
    + intros m. exact (lint_of_match_name fn m).
    + apply finditer_aux_Forall. apply match_at_name.
  - apply collect_all_Forall. apply collect_code_names.
  - intros lints fn code H. rewrite collect_code_app.
    unfold Re.finditer. rewrite finditer_aux_no_marker by assumption.
    apply app_nil_r.
Qed.

Lemma collected_names_witness :
  Forall (fun l =>
            lint_name l <> []
            /\ Forall (fun c => is_lower c = true \/ c = "_"%char) (lint_name l))
    demo_lints.
Proof.
  apply (proj1 (proj2 collected_names) demo_world demo_lints demo_world).
  reflexivity.
Defined.

(** ** A declaration read back *)

Lemma lit_app p s : Re.lit p (p ++ s) = Some s.
Proof.
  induction p as [|x p IH]; simpl; [now destruct s|].
  now rewrite (proj2 (chr_eqb_eq x x) eq_refl).
Qed.

Lemma many_stop c m rest :
  Forall (fun x => c x = true) m ->
  (forall x r, rest = x :: r -> c x = false) ->
  Re.many c (m ++ rest) = (m, rest).
Proof.
  intros F Hr. induction F as [|x m Hx _ IH]; simpl.
  - destruct rest as [|x r]; [reflexivity|]. simpl.
    now rewrite (Hr x r eq_refl).
  - now rewrite Hx, IH.
Qed.

Lemma name_chr_not_space c : Re.is_name_chr c = true -> is_space c = false.
Proof.
  destruct c as [b0 b1 b2 b3 b4 b5 b6 b7].
  destruct b0, b1, b2, b3, b4, b5, b6, b7; vm_compute;
    first [discriminate | reflexivity].
Qed.

Lemma desc_body_plain desc rest :
  ~ In QUOTE desc -> ~ In BSL desc ->
  Re.desc_body (desc ++ QUOTE :: rest) = (desc, QUOTE :: rest).
Proof.
  induction desc as [|c desc IH]; intros Hq Hb.
  - reflexivity.
  - simpl app. cbn [Re.desc_body].
    destruct (chr_eqb c QUOTE) eqn:Eq.
    { apply chr_eqb_eq in Eq. exfalso; apply Hq; now left. }
    destruct (chr_eqb c BSL) eqn:Eb.
    { apply chr_eqb_eq in Eb. exfalso; apply Hb; now left. }
    rewrite IH; [reflexivity | |]; intros H; [apply Hq | apply Hb]; now right.
Qed.

Lemma nl_escape_sub_plain s : ~ In BSL s -> Re.nl_escape_sub s = s.
Proof.
  unfold Re.nl_escape_sub.
  induction s as [|c s IH]; intros Hb; [reflexivity|]. simpl.
  destruct (chr_eqb c BSL) eqn:E.
  - apply chr_eqb_eq in E. exfalso; apply Hb; now left.
  - rewrite IH; [reflexivity|]. intros H; apply Hb; now right.
Qed.

Lemma replace_escaped_quote_plain s :
  ~ In BSL s -> Re.replace_escaped_quote s = s.
Proof.
  induction s as [|c s IH]; intros Hb; [reflexivity|]. simpl.
  destruct (chr_eqb c BSL) eqn:E.
  - apply chr_eqb_eq in E. exfalso; apply Hb; now left.
  - rewrite IH; [reflexivity|]. intros H; apply Hb; now right.
Qed.

Lemma finditer_aux_short s :
  forall skip, length s <= S skip -> Re.finditer_aux skip s = [].
Proof.
  induction s as [|c s IH]; intros skip Hlen; [reflexivity|].
  cbn [Re.finditer_aux]. destruct skip as [|k].
  - destruct s; [|simpl in Hlen; lia].
    unfold Re.match_at. cbn [Re.lit list_ascii_of_string].
    destruct (chr_eqb "d" c); reflexivity.
  - apply IH. simpl in Hlen. lia.
Qed.

Lemma level_alt_app level rest :
  In level [ #"Forbid"; #"Deny"; #"Warn"; #"Allow" ] ->
  Re.level_alt (level ++ rest) = Some (level, rest)
  /\ Re.many is_space (level ++ rest) = ([], level ++ rest).
Proof.
  intros [<-|[<-|[<-|[<-|[]]]]]; split; reflexivity.
Qed.

Lemma match_at_decl name level desc :
  name <> [] ->
  Forall (fun c => Re.is_name_chr c = true) name ->
  In level [ #"Forbid"; #"Deny"; #"Warn"; #"Allow" ] ->
  ~ In QUOTE desc -> ~ In BSL desc ->
  Re.match_at (decl name level desc)
  = Some (Re.mk_match name level desc, [NL]).
Proof.
  intros Hne Hname Hlevel Hq Hb. unfold decl.
  remember (desc ++ [QUOTE] ++ #" }" ++ [NL]) as after_desc eqn:Ed.
  assert (Hdesc : Re.desc_body after_desc = (desc, QUOTE :: #" }" ++ [NL])).
  { subst after_desc. now apply desc_body_plain. }
  remember (level ++ #", " ++ [QUOTE] ++ after_desc) as from_level eqn:El.
  destruct (level_alt_app level (#", " ++ [QUOTE] ++ after_desc) Hlevel)
    as [Hlv Hsl].
  rewrite <- El in Hlv, Hsl.
  remember (name ++ #", " ++ from_level) as from_name eqn:En.
  assert (Hsp : Re.many is_space from_name = ([], from_name)).
  { subst from_name. destruct name as [|n0 name]; [congruence|].
    apply Forall_inv in Hname. simpl.
    now rewrite (name_chr_not_space n0 Hname). }
  assert (Hnm : Re.many Re.is_name_chr from_name = (name, #", " ++ from_level)).
  { subst from_name. apply many_stop; [exact Hname|].
    intros x r [= <- _]. reflexivity. }
  assert (Hn1 : Re.many1 Re.is_name_chr from_name
                = Some (name, #", " ++ from_level)).
  { unfold Re.many1. rewrite Hnm. destruct name; [congruence | reflexivity]. }
  assert (Hs1 : Re.many1 is_space (" "%char :: from_name)
                = Some ([" "%char], from_name)).
  { unfold Re.many1.
    change (Re.many is_space (" "%char :: from_name))
      with (let (m, r) := Re.many is_space from_name in (" "%char :: m, r)).
    now rewrite Hsp. }
  assert (Hs2 : snd (Re.many is_space (" "%char :: from_level)) = from_level).
  { change (Re.many is_space (" "%char :: from_level))
      with (let (m, r) := Re.many is_space from_level in (" "%char :: m, r)).
    now rewrite Hsl. }
  unfold Re.match_at.
  change (Re.lit #"declare_lint!" (#"declare_lint! { pub " ++ from_name))
    with (Some (#" { pub " ++ from_name)).
  cbv beta iota.
  change (snd (Re.many is_space (#" { pub " ++ from_name)))
    with (#"{ pub " ++ from_name).
  change (Re.one Re.is_open (#"{ pub " ++ from_name))
    with (Some (#" pub " ++ from_name)).
  cbv beta iota.
  change (snd (Re.many is_space (#" pub " ++ from_name)))
    with (#"pub " ++ from_name).
  change (Re.lit #"pub" (#"pub " ++ from_name))
    with (Some (" "%char :: from_name)).
  cbv beta iota. rewrite Hs1. cbv beta iota. rewrite Hn1. cbv beta iota.
  change (snd (Re.many is_space (#", " ++ from_level)))
    with (#", " ++ from_level).
  change (Re.one Re.is_comma (#", " ++ from_level))
    with (Some (" "%char :: from_level)).
  cbv beta iota. rewrite Hs2, Hlv. cbv beta iota.
  change (snd (Re.many is_space (#", " ++ [QUOTE] ++ after_desc)))
    with (#", " ++ [QUOTE] ++ after_desc).
  change (Re.one Re.is_comma (#", " ++ [QUOTE] ++ after_desc))
    with (Some (" "%char :: QUOTE :: after_desc)).
  cbv beta iota.
  change (snd (Re.many is_space (" "%char :: QUOTE :: after_desc)))
    with (QUOTE :: after_desc).
  change (Re.one Re.is_quote (QUOTE :: after_desc)) with (Some after_desc).
  cbv beta iota. rewrite Hdesc. reflexivity.
Qed.

Lemma no_quote_check s :
  forallb (fun c => negb (chr_eqb c QUOTE)) s = true -> ~ In QUOTE s.
Proof. apply not_in_check. Qed.

Lemma no_backslash_check s :
  forallb (fun c => negb (chr_eqb c BSL)) s = true -> ~ In BSL s.
Proof. apply not_in_check. Qed.

Lemma finditer_single s m r :
  Re.match_at s = Some (m, r) -> length r <= 1 -> Re.finditer s = [m].
Proof.
  intros H Hr. unfold Re.finditer. destruct s as [|c s].
  - discriminate H.
  - cbn [Re.finditer_aux]. rewrite H. f_equal.
    apply finditer_aux_short. cbn [length]. lia.
Qed.

(** A declaration written in the usual layout is read back as it was
    written: an identifier of upper-case letters and underscores, one of
    the four levels, and a description without quote and backslash give
    exactly one lint, with the identifier and the level in lower case and
    the description untouched. *)
Theorem declaration_read_back (name level desc : str) (lints : list lint)
    (fn : str) :
  name <> [] ->
  Forall (fun c => Re.is_name_chr c = true) name ->
  In level [ #"Forbid"; #"Deny"; #"Warn"; #"Allow" ] ->
  ~ In QUOTE desc -> ~ In BSL desc ->
  collect_code lints fn (decl name level desc)
  = lints ++ [ mk_lint (fst (splitext (basename fn)))
                 (lower name) (lower level) desc ].
Proof.
  intros Hne Hname Hlevel Hq Hb.
  rewrite collect_code_app.
  rewrite (finditer_single _ _ _ (match_at_decl name level desc
                                    Hne Hname Hlevel Hq Hb) (le_n 1)).
  simpl. unfold lint_of_match. simpl.
  now rewrite nl_escape_sub_plain, replace_escaped_quote_plain.
Qed.

Lemma declaration_read_back_witness :
  collect_code [] #"src/misc.rs" (decl #"FOO_BAR" #"Warn" #"does a thing")
  = [ mk_lint #"misc" #"foo_bar" #"warn" #"does a thing" ].
Proof.
  refine (declaration_read_back #"FOO_BAR" #"Warn" #"does a thing" []
            #"src/misc.rs" _ _ _ _ _).
  - discriminate.
  - repeat constructor.
  - simpl. auto.
  - apply no_quote_check. reflexivity.
  - apply no_backslash_check. reflexivity.
Defined.

(** ** The text [main] generates, seen by the patterns of [main] *)

Lemma many1_stop c m rest :
  m <> [] ->
  Forall (fun x => c x = true) m ->
  (forall x r, rest = x :: r -> c x = false) ->
  Re.many1 c (m ++ rest) = Some (m, rest).
Proof.
  intros Hne F Hr. unfold Re.many1. rewrite many_stop by assumption.
  destruct m; [congruence | reflexivity].
Qed.

(** The header of the table is a start line of the table region. *)
Lemma table_header_start w : Re.table_start (table_header w) = true.
Proof.
  unfold table_header, ljust, times, Re.table_start.
  rewrite <- app_assoc, lit_app.
  change (repeat SP (w - length #"name") ++ #" | default | meaning" ++ [NL])
    with (repeat SP (w - length #"name")
          ++ SP :: (#"| default | meaning" ++ [NL])).
  replace (repeat SP (w - length #"name")
           ++ SP :: (#"| default | meaning" ++ [NL]))
    with ((repeat SP (w - length #"name") ++ [SP])
          ++ (#"| default | meaning" ++ [NL]))
    by now rewrite <- app_assoc.
  rewrite many1_stop.
  - reflexivity.
  - intros E. now apply app_eq_nil in E as [_ [=]].
  - apply Forall_app. split; [|repeat constructor].
    apply Forall_forall. intros x Hx. apply repeat_spec in Hx. now subst.
  - intros x r [= <- _]. reflexivity.
Qed.

Lemma blank_length l : Re.blank l = true -> length l <= 1.
Proof. destruct l as [|c [|d l]]; simpl; try discriminate; lia. Qed.

Lemma table_underline_not_blank w w' : Re.blank (table_underline w w') = false.
Proof.
  apply not_true_iff_false. intros H. apply blank_length in H.
  unfold table_underline in H. rewrite !length_app in H. simpl in H. lia.
Qed.

Lemma table_row_not_blank w l : Re.blank (table_row w l) = false.
Proof.
  apply not_true_iff_false. intros H. apply blank_length in H.
  unfold table_row in H. rewrite !length_app in H. simpl in H. lia.
Qed.

Lemma not_in_app {A} (x : A) a b : ~ In x a -> ~ In x b -> ~ In x (a ++ b).
Proof. intros Ha Hb H. apply in_app_or in H. tauto. Qed.

Lemma not_in_repeat {A} (x y : A) n : x <> y -> ~ In x (repeat y n).
Proof. intros Hn H. apply repeat_spec in H. congruence. Qed.

Lemma not_in_ljust x w s : x <> SP -> ~ In x s -> ~ In x (ljust w s).
Proof. intros Hx Hs. apply not_in_app; [exact Hs | now apply not_in_repeat]. Qed.

Lemma complete_line_app body :
  ~ In NL body -> complete_line (body ++ [NL]).
Proof. intros H. now exists body. Qed.

Lemma NL_not_SP : NL <> SP.
Proof. discriminate. Qed.

Lemma table_header_complete w : complete_line (table_header w).
Proof.
  unfold table_header. rewrite app_assoc. apply complete_line_app.
  apply not_in_app.
  - apply not_in_ljust; [exact NL_not_SP | apply no_newline_check; reflexivity].
  - apply no_newline_check. reflexivity.
Qed.

Lemma table_underline_complete w w' : complete_line (table_underline w w').
Proof.
  unfold table_underline, times. rewrite !app_assoc. apply complete_line_app.
  repeat apply not_in_app;
    first [ apply not_in_repeat; discriminate
          | apply no_newline_check; reflexivity ].
Qed.

Lemma table_row_complete w l :
  ~ In NL (lint_name l) -> ~ In NL (lint_level l) -> ~ In NL (lint_desc l) ->
  complete_line (table_row w l).
Proof.
  intros Hn Hl Hd. unfold table_row. rewrite !app_assoc.
  apply complete_line_app.
  repeat apply not_in_app;
    first [ assumption
          | apply not_in_repeat; exact NL_not_SP
          | apply no_newline_check; reflexivity ].
Qed.

(** *** The count statement *)

Lemma string_of_uint_digits d :
  Forall (fun c => is_digit c = true)
    (list_ascii_of_string (NilEmpty.string_of_uint d)).
Proof. induction d; simpl; constructor; auto. Qed.

Lemma revapp_not_nil d : forall acc, acc <> Decimal.Nil -> Decimal.revapp d acc <> Decimal.Nil.
Proof. induction d; intros acc H; simpl; auto; apply IHd; discriminate. Qed.

Lemma little_succ_not_nil d : Decimal.Little.succ d <> Decimal.Nil.
Proof. destruct d; simpl; discriminate. Qed.

Lemma to_little_uint_not_nil n :
  forall acc, acc <> Decimal.Nil -> Nat.to_little_uint n acc <> Decimal.Nil.
Proof.
  induction n as [|n IH]; intros acc H; simpl; auto.
  apply IH, little_succ_not_nil.
Qed.

Lemma to_uint_not_nil n : Nat.to_uint n <> Decimal.Nil.
Proof.
  unfold Nat.to_uint, Decimal.rev.
  destruct (Nat.to_little_uint n Decimal.zero) eqn:E;
    [now apply to_little_uint_not_nil in E | ..];
    simpl; apply revapp_not_nil; discriminate.
Qed.

Lemma fmt_d_digits n :
  fmt_d n <> [] /\ Forall (fun c => is_digit c = true) (fmt_d n).
Proof.
  unfold fmt_d. split; [|apply string_of_uint_digits].
  pose proof (to_uint_not_nil n) as H.
  destruct (Nat.to_uint n); simpl; congruence.
Qed.

Lemma digit_not_newline c : is_digit c = true -> c <> NL.
Proof. intros H ->. discriminate H. Qed.

(** The count statement is a start line of the count region. *)
Lemma count_line_start lints : Re.count_start (count_line lints) = true.
Proof.
  unfold count_line, Re.count_start. rewrite lit_app.
  destruct (fmt_d_digits (length lints)) as [Hne Hd].
  rewrite (many1_stop is_digit (fmt_d (length lints))
             (#" lints included in this crate:" ++ [NL]) Hne Hd).
  - now rewrite lit_app.
  - intros x r [= <- _]. reflexivity.
Qed.

Lemma count_line_complete lints : complete_line (count_line lints).
Proof.
  unfold count_line. rewrite !app_assoc. apply complete_line_app.
  repeat apply not_in_app; try (apply no_newline_check; reflexivity).
  destruct (fmt_d_digits (length lints)) as [_ Hd].
  rewrite Forall_forall in Hd. intros H. now apply (digit_not_newline _ (Hd _ H)).
Qed.

(** *** The lint group *)

Lemma upper_chr_keeps c :
  (upper_chr c = "]"%char -> c = "]"%char) /\ (upper_chr c = NL -> c = NL).
Proof.
  destruct c as [b0 b1 b2 b3 b4 b5 b6 b7].
  destruct b0, b1, b2, b3, b4, b5, b6, b7; vm_compute;
    split; intros H; first [reflexivity | discriminate H].
Qed.

Lemma not_in_upper x s :
  (forall c, upper_chr c = x -> c = x) -> ~ In x s -> ~ In x (upper s).
Proof.
  intros Hx Hs H. unfold upper in H. apply in_map_iff in H as (c & E & Hc).
  apply Hx in E. subst. auto.
Qed.

Lemma group_end_needs_bracket l : ~ In "]"%char l -> Re.group_end l = false.
Proof.
  unfold Re.group_end. induction l as [|c l IH]; intros H; [reflexivity|].
  cbn [Re.search]. rewrite IH by (intros Hl; apply H; now right).
  cbn [Re.lit list_ascii_of_string].
  destruct (chr_eqb "]" c) eqn:E; [|reflexivity].
  apply chr_eqb_eq in E. exfalso. apply H. now left.
Qed.

Lemma group_line_inside l :
  ~ In "]"%char (lint_module l) -> ~ In "]"%char (lint_name l) ->
  Re.group_end (group_line l) = false.
Proof.
  intros Hm Hn. apply group_end_needs_bracket. unfold group_line.
  repeat apply not_in_app;
    first [ assumption
          | apply not_in_upper;
            [intros c; apply (proj1 (upper_chr_keeps c)) | assumption]
          | apply not_in_check; reflexivity ].
Qed.

Lemma group_line_complete l :
  ~ In NL (lint_module l) -> ~ In NL (lint_name l) ->
  complete_line (group_line l).
Proof.
  intros Hm Hn. unfold group_line. rewrite !app_assoc.
  apply complete_line_app.
  repeat apply not_in_app;
    first [ assumption
          | apply not_in_upper;
            [intros c; apply (proj2 (upper_chr_keeps c)) | assumption]
          | apply no_newline_check; reflexivity ].
Qed.



(** ** Two replacements on one file *)

Lemma scan_app rs re cb rstart l1 l2 st :
  scan_lines rs re cb rstart (l1 ++ l2) st
  = match scan_lines rs re cb rstart l1 st with
    | Return st' => scan_lines rs re cb rstart l2 st'
    | Raise e => Raise e
    end.
Proof.
  revert st; induction l1 as [|l l1 IH]; intros st; simpl; [reflexivity|].
  destruct (scan_line rs re cb rstart st l); [apply IH | reflexivity].
Qed.

Section RegionsHold.
Variables (is_start is_end : str -> bool).
Variables (h : str) (t : list str).
Hypothesis h_opens : is_start h = true.
Hypothesis t_inside : Forall (fun l => is_end l = false) t.

Let g := h :: t.
Let scan_g := scan_lines is_start is_end (fun _ => Return g) true.

(** The output of the scan has all its regions closed, holding [g]. *)
Lemma scan_output_regions_hold n :
  forall lines st,
    length lines <= n ->
    scan_g lines scan_init = Return st ->
    regions_hold is_start is_end g (new_lines st).
Proof.
  induction n as [|n IH]; intros lines st Hn Hst.
  - destruct lines; [|simpl in Hn; lia]. simpl in Hst.
    injection Hst as <-. apply regions_hold_plain. constructor.
  - destruct (split_first is_start lines)
      as [Hnone | (pre & s & rest & -> & Hpre & Hs)].
    + assert (E : scan_g lines scan_init = Return (mk_scan lines false 0)).
      { unfold scan_g, scan_init. rewrite <- (app_nil_r lines) at 1.
        now rewrite (scan_copy is_start is_end true). }
      rewrite E in Hst. injection Hst as <-. now apply regions_hold_plain.
    + destruct (split_first is_end rest)
        as [Hopen | (mid & e & post & -> & Hmid & He)].
      * unfold scan_g in Hst.
        rewrite (scan_open is_start is_end true (fun _ => Return g)
                   pre s rest Hpre Hs Hopen) in Hst.
        injection Hst as <-. simpl. rewrite app_nil_r.
        now apply regions_hold_plain.
      * destruct (scan_const_total is_start is_end g true post scan_init)
          as [stp Hp].
        assert (Hlen : length post <= n).
        { rewrite !length_app in Hn. simpl in Hn.
          rewrite length_app in Hn. simpl in Hn. lia. }
        pose proof (IH post stp Hlen Hp) as Hrest.
        unfold scan_g in Hst.
        rewrite (scan_region is_start is_end true (fun _ => Return g)
                   pre s mid e post g Hpre Hs Hmid He eq_refl) in Hst.
        rewrite (scan_const_resume is_start is_end g true) in Hst.
        fold scan_g in Hp. unfold scan_g in Hp. rewrite Hp in Hst.
        simpl in Hst. injection Hst as <-. simpl new_lines.
        assert (Eq : (pre ++ h :: t ++ [e]) ++ new_lines stp
                     = pre ++ g ++ e :: new_lines stp)
          by (unfold g; repeat (rewrite <- app_assoc || simpl); reflexivity).
        rewrite Eq. now apply regions_hold_region.
Qed.

(** Such lines are left as they are by the scan. *)
Lemma regions_hold_fixed lines :
  regions_hold is_start is_end g lines ->
  exists st, scan_g lines scan_init = Return st /\ new_lines st = lines.
Proof.
  induction 1 as [p Hp | p e rest Hp He _ (st & Hst & E)].
  - exists (mk_scan p false 0). split; [|reflexivity].
    unfold scan_g, scan_init. rewrite <- (app_nil_r p) at 1.
    now rewrite (scan_copy is_start is_end true).
  - unfold scan_g.
    replace (p ++ g ++ e :: rest) with (p ++ h :: t ++ e :: rest)
      by reflexivity.
    rewrite (scan_region is_start is_end true (fun _ => Return g)
               p h t e rest g Hp h_opens t_inside He eq_refl).
    rewrite (scan_const_resume is_start is_end g true).
    fold scan_g. rewrite Hst. simpl. eexists; split; [reflexivity|].
    simpl. rewrite E. unfold g.
    repeat (rewrite <- app_assoc || simpl). reflexivity.
Qed.
End RegionsHold.

Section SingleLineRegions.
(** A first scan with regions [g = h :: t], and a second scan whose end
    pattern matches every line, so that its regions are single lines,
    replaced by the line [c]. *)
Variables (is_start is_end : str -> bool).
Variables (h : str) (t : list str).
Variable is_single : str -> bool.
Variable c : str.

Let g := h :: t.
Let scan_c :=
  scan_lines is_single (fun _ => true) (fun _ => Return [c]) true.

Hypothesis c_plain : is_start c = false.
Hypothesis g_plain : Forall (fun l => is_single l = false) g.
Hypothesis end_plain : forall e, is_end e = true -> is_single e = false.

Lemma single_scan_plain p :
  Forall (fun l => is_start l = false) p ->
  forall acc b k,
  exists p' b' k',
    scan_c p (mk_scan acc b k) = Return (mk_scan (acc ++ p') b' k')
    /\ Forall (fun l => is_start l = false) p'.
Proof.
  induction 1 as [|l p Hl _ IH]; intros acc b k.
  - exists [], b, k. simpl. rewrite app_nil_r. split; [reflexivity|constructor].
  - simpl. unfold scan_line. simpl. destruct b.
    + destruct (IH ((acc ++ [c]) ++ [l]) false (S k)) as (p' & b' & k' & E & F).
      exists (c :: l :: p'), b', k'. rewrite E.
      split; [|now repeat constructor].
      f_equal. f_equal. now rewrite <- !app_assoc.
    + destruct (is_single l).
      * destruct (IH acc true k) as (p' & b' & k' & E & F).
        exists p', b', k'. now split.
      * destruct (IH (acc ++ [l]) false k) as (p' & b' & k' & E & F).
        exists (l :: p'), b', k'. rewrite E.
        split; [|now constructor].
        f_equal. f_equal. now rewrite <- app_assoc.
Qed.

Lemma single_scan_region e rest acc b k :
  is_end e = true ->
  scan_c (g ++ e :: rest) (mk_scan acc b k)
  = scan_c rest
      (mk_scan ((acc ++ (if b then [c] else [])) ++ g ++ [e]) false
         (if b then S k else k)).
Proof.
  intros He. unfold g in *. apply Forall_cons_iff in g_plain as [Hh Ht].
  assert (Hte : Forall (fun l => is_single l = false) (t ++ [e])).
  { apply Forall_app. split; [exact Ht|]. constructor; [|constructor].
    now apply end_plain. }
  simpl app. cbn [scan_c scan_lines]. unfold scan_line. cbn [in_old_region].
  destruct b.
  - cbn [calls new_lines].
    replace (t ++ e :: rest) with ((t ++ [e]) ++ rest)
      by (now rewrite <- app_assoc).
    unfold scan_c.
    rewrite (scan_copy is_single (fun _ => true) true) by assumption.
    f_equal. f_equal. repeat (rewrite <- app_assoc || simpl). reflexivity.
  - rewrite Hh. cbn [calls new_lines].
    replace (t ++ e :: rest) with ((t ++ [e]) ++ rest)
      by (now rewrite <- app_assoc).
    unfold scan_c.
    rewrite (scan_copy is_single (fun _ => true) true) by assumption.
    f_equal. f_equal. repeat (rewrite <- app_assoc || simpl). reflexivity.
Qed.

(** The second scan keeps the regions of the first closed and filled. *)
Lemma single_scan_keeps_regions lines :
  regions_hold is_start is_end g lines ->
  forall st,
    scan_c lines scan_init = Return st ->
    regions_hold is_start is_end g (new_lines st).
Proof.
  induction 1 as [p Hp | p e rest Hp He _ IH]; intros st Hst.
  - destruct (single_scan_plain p Hp [] false 0) as (p' & b' & k' & E & F).
    unfold scan_init in Hst. rewrite E in Hst. injection Hst as <-.
    now apply regions_hold_plain.
  - unfold scan_c, scan_init in Hst. rewrite scan_app in Hst.
    destruct (single_scan_plain p Hp [] false 0) as (p' & b' & k' & E & F).
    unfold scan_c in E. rewrite E in Hst. fold scan_c in Hst.
    rewrite (single_scan_region e rest _ b' k' He) in Hst.
    unfold scan_c in Hst.
    rewrite (scan_const_resume is_single (fun _ => true) [c] true) in Hst.
    destruct (scan_const_total is_single (fun _ => true) [c] true rest
                scan_init) as [str Hr].
    rewrite Hr in Hst. simpl in Hst. injection Hst as <-. simpl new_lines.
    assert (Eq : (((p' ++ (if b' then [c] else [])) ++ h :: t ++ [e])
                  ++ new_lines str)
                 = (p' ++ (if b' then [c] else [])) ++ g ++ e :: new_lines str)
      by (unfold g; repeat (rewrite <- app_assoc || simpl); reflexivity).
    rewrite Eq. apply regions_hold_region; auto.
    apply Forall_app. split; [exact F|].
    destruct b'; [now constructor | constructor].
Qed.
End SingleLineRegions.

(** The two replacements in [README.md] do not see each other's lines:
    a count statement starts with a capital T, which no line of the table
    does, nor a line that ends the table. *)
Lemma count_start_first l :
  Re.count_start l = true -> hd_error l = Some "T"%char.
Proof.
  destruct l as [|x l]; [discriminate|].
  unfold Re.count_start.
  change (Re.lit #"There are " (x :: l))
    with (if chr_eqb "T" x then Re.lit #"here are " l else None).
  destruct (chr_eqb "T" x) eqn:E; [|discriminate].
  apply chr_eqb_eq in E. now subst.
Qed.

Lemma count_line_not_table_start lints :
  Re.table_start (count_line lints) = false.
Proof. reflexivity. Qed.

Lemma blank_not_count_start e : Re.blank e = true -> Re.count_start e = false.
Proof.
  destruct e as [|x [|y e]]; simpl; try discriminate; [reflexivity|].
  intros E. apply chr_eqb_eq in E. now subst.
Qed.

Lemma table_header_not_count_start w : Re.count_start (table_header w) = false.
Proof. reflexivity. Qed.

Lemma table_underline_not_count_start w w' :
  Re.count_start (table_underline w w') = false.
Proof. destruct w; reflexivity. Qed.

Lemma table_row_not_count_start w l :
  Forall (fun c => is_lower c = true \/ c = "_"%char) (lint_name l) ->
  Re.count_start (table_row w l) = false.
Proof.
  intros H. apply not_true_iff_false. intros E.
  apply count_start_first in E. unfold table_row, ljust, times in E.
  destruct (lint_name l) as [|x n].
  - simpl in E. destruct w; discriminate.
  - simpl in E. injection E as ->. apply Forall_inv in H.
    destruct H as [H|H]; discriminate.
Qed.

(** The table scan followed by the count scan: what the two leave is left
    as it is by both. *)
Lemma table_then_count_settled (h : str) (t : list str) (c : str)
    (lines : list str) (st1 st2 : scan) :
  Re.table_start h = true ->
  Forall (fun l => Re.blank l = false) t ->
  Forall (fun l => Re.count_start l = false) (h :: t) ->
  Re.table_start c = false ->
  Re.count_start c = true ->
  scan_lines Re.table_start Re.blank (fun _ => Return (h :: t)) true
    lines scan_init = Return st1 ->
  scan_lines Re.count_start Re.empty (fun _ => Return [c]) true
    (new_lines st1) scan_init = Return st2 ->
  (exists st3,
      scan_lines Re.table_start Re.blank (fun _ => Return (h :: t)) true
        (new_lines st2) scan_init = Return st3
      /\ new_lines st3 = new_lines st2)
  /\ (exists st4,
         scan_lines Re.count_start Re.empty (fun _ => Return [c]) true
           (new_lines st2) scan_init = Return st4
         /\ new_lines st4 = new_lines st2).
Proof.
  intros Hh Ht Hg Hc Hc' H1 H2. split.
  - apply (regions_hold_fixed Re.table_start Re.blank h t Hh Ht).
    apply (single_scan_keeps_regions Re.table_start Re.blank h t
             Re.count_start c Hc Hg blank_not_count_start (new_lines st1));
      [|exact H2].
    eapply scan_output_regions_hold; [..|exact H1]; auto.
  - apply (scan_twice_bounded Re.count_start Re.empty [c] true
             (Forall_nil _)
             (fun _ => ex_intro _ c (ex_intro _ [] (conj eq_refl Hc')))
             (length (new_lines st1)) (new_lines st1) st2 (le_n _) H2).
Qed.

(** *** The calls on files *)

Lemma read_file_elsewhere p w w' text :
  lookup (split_path p) (cwd w') = lookup (split_path p) (cwd w) ->
  read_file p w = (Return text, w) ->
  read_file p w' = (Return text, w').
Proof.
  intros E H. apply read_file_inv in H as [_ H].
  unfold read_file. now rewrite E, H.
Qed.

(** A call with [write_back] and a callback that always yields the same
    complete lines: the file holds the lines of the scan afterwards, and
    reading them back gives these lines. *)
Lemma replace_region_const_run rs re g rstart fn w text :
  Forall complete_line g ->
  read_file fn w = (Return text, w) ->
  exists st w1,
    scan_lines rs re (fun _ => Return g) rstart (readlines text) scan_init
    = Return st
    /\ replace_region rs re (fun _ => Return g) rstart fn true w
       = (Return (negb (lines_eqb (readlines text) (new_lines st))), w1)
    /\ read_file fn w1 = (Return (writelines (new_lines st)), w1)
    /\ readlines (writelines (new_lines st)) = new_lines st
    /\ stdout w1 = stdout w
    /\ (forall q, ~ is_prefix q (split_path fn) ->
                  lookup q (cwd w1) = lookup q (cwd w)).
Proof.
  intros Hg Hr.
  destruct (scan_const_total rs re g rstart (readlines text) scan_init)
    as [st Hst].
  destruct (replace_region_run rs re (fun _ => Return g) rstart fn true w
              text st Hr Hst) as (w1 & Hrun & Hout & Hr1).
  exists st, w1. repeat split; auto.
  - apply readlines_writelines.
    apply (scan_file_lines rs re g rstart Hg (readlines text)
             (readlines_file_lines text) scan_init st);
      [constructor | exact Hst].
  - intros q Hq.
    pose proof (touches_only_replace_region [split_path fn] rs re
                  (fun _ => Return g) rstart fn true (or_introl eq_refl)
                  w q) as T.
    rewrite Hrun in T. apply T. intros p [<-|[]]. exact Hq.
Qed.

(** A call on a file whose lines the scan leaves as they are returns
    false and changes nothing, with or without [write_back]. *)
Lemma replace_region_settled rs re cb rstart fn w ls st write_back :
  read_file fn w = (Return (writelines ls), w) ->
  readlines (writelines ls) = ls ->
  scan_lines rs re cb rstart ls scan_init = Return st ->
  new_lines st = ls ->
  replace_region rs re cb rstart fn write_back w = (Return false, w).
Proof.
  intros Hr El Hst E. unfold replace_region, bind, lift.
  rewrite Hr. cbv beta iota. rewrite El, Hst. cbv beta iota. rewrite E.
  rewrite (proj2 (lines_eqb_eq _ _) eq_refl).
  destruct write_back; [|reflexivity].
  now rewrite (write_lines_same fn w ls Hr).
Qed.



Lemma name_chars_plain (x : ascii) n :
  is_lower x = false -> x <> "_"%char ->
  Forall (fun c => is_lower c = true \/ c = "_"%char) n -> ~ In x n.
Proof.
  intros Hl Hu F Hin. rewrite Forall_forall in F.
  destruct (F x Hin) as [E|E]; congruence.
Qed.

(** ** A second run *)

(** After the three replacements of a run in write mode, the three
    replacements find nothing to change, in write mode and in check
    mode. *)
Lemma update_regions_twice lints w readme lib :
  lints <> [] ->
  Forall (fun l =>
            Forall (fun c => is_lower c = true \/ c = "_"%char) (lint_name l)
            /\ ~ In NL (lint_level l) /\ ~ In NL (lint_desc l)
            /\ ~ In NL (lint_module l) /\ ~ In "]"%char (lint_module l))
    lints ->
  read_file #"README.md" w = (Return readme, w) ->
  read_file #"src/lib.rs" w = (Return lib, w) ->
  exists changed w1,
    update_regions lints false w = (Return changed, w1)
    /\ stdout w1 = stdout w
    /\ isfile #"src/lib.rs" w1 = (Return true, w1)
    /\ forall check, update_regions lints check w1 = (Return false, w1).
Proof.
  intros Hne Hok Hreadme Hlib.
  destruct (gen_table_some lints Hne) as (wn & wd & _ & _ & Ht).
  set (h := table_header wn) in *.
  set (t := table_underline wn wd :: map (table_row wn) (sorted name_ltb lints))
    in *.
  set (c := count_line lints).
  assert (Hs : Forall (fun l =>
            Forall (fun c => is_lower c = true \/ c = "_"%char) (lint_name l)
            /\ ~ In NL (lint_level l) /\ ~ In NL (lint_desc l)
            /\ ~ In NL (lint_module l) /\ ~ In "]"%char (lint_module l))
                 (sorted name_ltb lints)).
  { eapply Permutation_Forall; [symmetry; apply sorted_by_name | exact Hok]. }
  assert (Hs' : Forall (fun l =>
            Forall (fun c => is_lower c = true \/ c = "_"%char) (lint_name l)
            /\ ~ In NL (lint_level l) /\ ~ In NL (lint_desc l)
            /\ ~ In NL (lint_module l) /\ ~ In "]"%char (lint_module l))
                 (sorted lint_ltb lints)).
  { eapply Permutation_Forall; [symmetry; apply sorted_by_tuple | exact Hok]. }
  assert (Hh : Re.table_start h = true) by apply table_header_start.
  assert (Htin : Forall (fun l => Re.blank l = false) t).
  { constructor; [apply table_underline_not_blank|].
    apply Forall_map, Forall_forall. intros l _. apply table_row_not_blank. }
  assert (Hgc : Forall complete_line (h :: t)).
  { constructor; [apply table_header_complete|].
    constructor; [apply table_underline_complete|].
    apply Forall_map. eapply Forall_impl; [|exact Hs].
    intros l (A & B & C & _). apply table_row_complete; auto.
    apply (name_chars_plain NL _ eq_refl); [discriminate | exact A]. }
  assert (Hgn : Forall (fun l => Re.count_start l = false) (h :: t)).
  { constructor; [apply table_header_not_count_start|].
    constructor; [apply table_underline_not_count_start|].
    apply Forall_map. eapply Forall_impl; [|exact Hs].
    intros l (A & _). now apply table_row_not_count_start. }
  assert (Hcc : Forall complete_line [c])
    by (constructor; [apply count_line_complete | constructor]).
  assert (Hgi : Forall (fun l => Re.group_end l = false) (gen_group lints)).
  { unfold gen_group. apply Forall_map. eapply Forall_impl; [|exact Hs'].
    intros l (A & B & C & D & E). apply group_line_inside; auto.
    apply (name_chars_plain "]"%char _ eq_refl); [discriminate | exact A]. }
  assert (Hgg : Forall complete_line (gen_group lints)).
  { unfold gen_group. apply Forall_map. eapply Forall_impl; [|exact Hs'].
    intros l (A & B & C & D & E). apply group_line_complete; auto.
    apply (name_chars_plain NL _ eq_refl); [discriminate | exact A]. }
  assert (Hp1 : ~ is_prefix (split_path #"src/lib.rs") (split_path #"README.md"))
    by (intros [x Hx]; vm_compute in Hx; discriminate).
  assert (Hp2 : ~ is_prefix (split_path #"README.md") (split_path #"src/lib.rs"))
    by (intros [x Hx]; vm_compute in Hx; discriminate).
  (* the first run *)
  destruct (replace_region_const_run Re.table_start Re.blank (h :: t) true
              #"README.md" w readme Hgc Hreadme)
    as (stA & wA & HsA & HrunA & HreadA & HrlA & HoutA & HelseA).
  pose proof (read_file_elsewhere #"src/lib.rs" w wA lib (HelseA _ Hp1) Hlib)
    as HlibA.
  destruct (replace_region_const_run Re.count_start Re.empty [c] true
              #"README.md" wA _ Hcc HreadA)
    as (stB & wB & HsB & HrunB & HreadB & HrlB & HoutB & HelseB).
  rewrite HrlA in HsB.
  pose proof (read_file_elsewhere #"src/lib.rs" wA wB lib (HelseB _ Hp1) HlibA)
    as HlibB.
  destruct (replace_region_const_run Re.group_start Re.group_end
              (gen_group lints) false #"src/lib.rs" wB lib Hgg HlibB)
    as (stC & wC & HsC & HrunC & HreadC & HrlC & HoutC & HelseC).
  pose proof (read_file_elsewhere #"README.md" wB wC _ (HelseC _ Hp2) HreadB)
    as HreadmeC.
  (* what the scans leave is settled *)
  destruct (table_then_count_settled h t c (readlines readme) stA stB
              Hh Htin Hgn (count_line_not_table_start lints)
              (count_line_start lints) HsA HsB)
    as [(st3 & Hst3 & E3) (st4 & Hst4 & E4)].
  destruct (scan_twice_bounded Re.group_start Re.group_end (gen_group lints)
              false Hgi (fun H => False_ind _ (diff_false_true H))
              (length (readlines lib)) (readlines lib) stC (le_n _) HsC)
    as (st5 & Hst5 & E5).
  subst c. eexists; exists wC. split; [|split; [|split]].
  - unfold update_regions, bind. rewrite Ht. simpl negb.
    rewrite HrunA. cbv beta iota. rewrite HrunB. cbv beta iota.
    rewrite HrunC. cbv beta iota. unfold ret. reflexivity.
  - congruence.
  - apply read_file_inv in HreadC as [_ HreadC].
    unfold isfile. now rewrite HreadC.
  - intros check. unfold update_regions, bind. rewrite Ht.
    rewrite (replace_region_settled Re.table_start Re.blank
               (fun _ => Return (h :: t)) true #"README.md" wC
               (new_lines stB) st3 (negb check) HreadmeC HrlB Hst3 E3).
    cbv beta iota.
    rewrite (replace_region_settled Re.count_start Re.empty
               (fun _ => Return [count_line lints]) true #"README.md" wC
               (new_lines stB) st4 (negb check) HreadmeC HrlB Hst4 E4).
    cbv beta iota.
    rewrite (replace_region_settled Re.group_start Re.group_end
               (fun _ => Return (gen_group lints)) false #"src/lib.rs" wC
               (new_lines stC) st5 (negb check) HreadC HrlC Hst5 E5).
    reflexivity.
Qed.

Lemma level_ok_no_newline l : level_ok l -> ~ In NL (lint_level l).
Proof.
  unfold level_ok, levels. intros [H|[H|[H|[H|[]]]]]; rewrite <- H;
    apply no_newline_check; reflexivity.
Qed.



(** ** A checkout without README *)

(** When [README.md] cannot be read, a run that is not print-only ends
    with an exception, whatever the mode: nothing is written, nothing is
    printed, and the exit status is 1. *)
Theorem main_without_readme (check : bool) (w : world) (lib : str) :
  read_file #"src/lib.rs" w = (Return lib, w) ->
  fst (read_file #"README.md" w) = Raise IOError ->
  snd (main false check w) = w
  /\ (exists e, fst (main false check w) = Raise e)
  /\ exit_status (fst (main false check w)) = 1%Z.
Proof.
  intros Hlib Hreadme.
  assert (Hmarker : isfile #"src/lib.rs" w = (Return true, w)).
  { apply read_file_inv in Hlib as [_ Hlib]. unfold isfile. now rewrite Hlib. }
  assert (Hr : read_file #"README.md" w = (Raise IOError, w)).
  { pose proof (read_only_read_file #"README.md" w) as R.
    destruct (read_file #"README.md" w) as [o w0]. simpl in *. now subst. }
  unfold main, bind. rewrite Hmarker. change (negb true) with false.
  cbv beta iota.
  pose proof (read_only_collect_all w) as Rc.
  destruct (collect_all w) as [[lints|e] w0]; simpl in Rc; subst w0.
  - unfold update_regions, replace_region, bind. rewrite Hr. simpl. eauto.
  - simpl. eauto.
Qed.

Lemma main_without_readme_witness :
  snd (main false false no_readme_world) = no_readme_world
  /\ (exists e, fst (main false false no_readme_world) = Raise e)
  /\ exit_status (fst (main false false no_readme_world)) = 1%Z.
Proof.
  apply (main_without_readme false no_readme_world demo_lib); reflexivity.
Defined.
